(** * Attachment downloader: a shallow embedding and its properties

    The development follows the script that downloads the attachments of a
    ServiceNow instance: the configuration check, the list query, the
    per-attachment pipeline of [AttachmentHandler] (owner resolution,
    directory creation, unique file name, download) and the bounded
    dispatch through [async.eachOfLimit]. *)

From Stdlib Require Import ZArith NArith Ascii Lia.
From stdpp Require Import base decidable option list strings pretty gmap.

Set Warnings "-register-all".

(** ** JavaScript values *)

(** The values the script handles: what [JSON.parse] returns, the [error]
    argument of a [request] callback, configuration fields and the
    continuations handed around by [waterfall].  Numbers are the integers,
    which is all the script tests them for. *)
Inductive JsVal : Type :=
  | JUndefined
  | JNull
  | JBool (b : bool)
  | JNum (z : Z)
  | JStr (s : string)
  | JArr (elems : list JsVal)
  | JObj (props : list (string * JsVal))
  | JError (message : string)
  | JFun (name : string).

(** JavaScript's ToBoolean: [undefined], [null], [false], [0] and the empty
    string are falsy, everything else is truthy. *)
Definition truthy (v : JsVal) : bool :=
  match v with
  | JUndefined | JNull => false
  | JBool b => b
  | JNum z => negb (Z.eqb z 0)
  | JStr s => negb (String.eqb s "")
  | JArr _ | JObj _ | JError _ | JFun _ => true
  end.

(** Exceptions the script can raise; none of them is caught anywhere. *)
Inductive exn : Type :=
  | TypeError (what : string)
  | SyntaxError
  | ENOENT (path : string)
  | EEXIST (path : string).

(** A small error monad for code that may throw. *)
Definition M (A : Type) : Type := exn + A.
Definition ret {A} (a : A) : M A := inr a.
Definition throw {A} (e : exn) : M A := inl e.
Definition bind {A B} (m : M A) (k : A -> M B) : M B :=
  match m with
  | inl e => inl e
  | inr a => k a
  end.
Notation "'letM' x ':=' m 'in' k" := (bind m (fun x => k))
  (at level 10, x name, m at level 100, k at level 200).

Fixpoint assoc (k : string) (props : list (string * JsVal)) : JsVal :=
  match props with
  | [] => JUndefined
  | (k', v) :: rest => if String.eqb k k' then v else assoc k rest
  end.

(** Property read [v.k]: a TypeError on [undefined] and [null], the stored
    value on an object, [undefined] when the property is missing. *)
Definition get (v : JsVal) (k : string) : M JsVal :=
  match v with
  | JUndefined | JNull => throw (TypeError k)
  | JObj props => ret (assoc k props)
  | _ => ret JUndefined
  end.

(** ** Strings and character classes *)

(** A string is a sequence of characters, one [ascii] for each code unit,
    so the code units of the embedding range over 0 to 255; those above
    127 are the ones outside ASCII. *)

Definition code (c : ascii) : N := Ascii.N_of_ascii c.

Definition dquote : ascii := Ascii.ascii_of_N 34.

(** [s.replace(/[cls]/g, "")]: every character of the class is dropped. *)
Fixpoint replace_class (cls : ascii -> bool) (s : string) : string :=
  match s with
  | EmptyString => EmptyString
  | String c rest =>
      if cls c then replace_class cls rest
      else String c (replace_class cls rest)
  end.

(** The character class of the first regular expression of [cleanFileName]:
    | & ; $ % @ double-quote < > ( ) + , and the star. *)
Definition denylist : list ascii :=
  ["|"; "&"; ";"; "$"; "%"; "@"; dquote; "<"; ">"; "("; ")"; "+"; ","; "*"]%char.

Definition in_denylist (c : ascii) : bool := bool_decide (c ∈ denylist).

(** The class [[^\x00-\x7F]]. *)
Definition non_ascii (c : ascii) : bool := negb (code c <=? 127)%N.

(** [AttachmentHandler.cleanFileName] (lines 82-88). *)
Definition cleanFileName (filename : string) : string :=
  let newFn := replace_class in_denylist filename in
  let newFn := replace_class non_ascii newFn in
  newFn.

Fixpoint chars (s : string) : list ascii :=
  match s with
  | EmptyString => []
  | String c rest => c :: chars rest
  end.

(** ** The [path] module (POSIX flavour) *)

(** The functions of Node's [path] module that the script calls, on
    strings, with the forward slash as separator. *)

Module path.

Definition sep : string := "/".
Definition slash : ascii := "/"%char.
Definition dot : ascii := "."%char.
Definition is_slash (c : ascii) : bool := bool_decide (c = slash).

Fixpoint of_chars (l : list ascii) : string :=
  match l with
  | [] => EmptyString
  | c :: rest => String c (of_chars rest)
  end.

Fixpoint take_while {A} (p : A -> bool) (l : list A) : list A :=
  match l with
  | [] => []
  | a :: rest => if p a then a :: take_while p rest else []
  end.

Fixpoint drop_while {A} (p : A -> bool) (l : list A) : list A :=
  match l with
  | [] => []
  | a :: rest => if p a then drop_while p rest else l
  end.

(** The segments between the separators; two separators in a row enclose
    an empty segment. *)
Fixpoint split (s : string) : list string :=
  match s with
  | EmptyString => [EmptyString]
  | String c rest =>
      if is_slash c then EmptyString :: split rest
      else match split rest with
           | [] => [String c EmptyString]
           | seg :: segs => String c seg :: segs
           end
  end.

(** [normalizeString]: the segments are pushed on [res] (last segment
    first); empty and "." segments are skipped, ".." pops a segment or,
    above the start of a relative path, is kept. *)
Fixpoint normalizeString (allowAboveRoot : bool) (res : list string)
    (segs : list string) : list string :=
  match segs with
  | [] => res
  | seg :: rest =>
      let res' :=
        if bool_decide (seg = "" \/ seg = ".") then res
        else if bool_decide (seg = "..") then
          match res with
          | top :: below =>
              if bool_decide (top = "..")
              then (if allowAboveRoot then ".." :: res else res)
              else below
          | [] => if allowAboveRoot then [".."] else []
          end
        else seg :: res in
      normalizeString allowAboveRoot res' rest
  end.

Fixpoint intercalate (segs : list string) : string :=
  match segs with
  | [] => ""
  | [seg] => seg
  | seg :: rest => seg +:+ sep +:+ intercalate rest
  end.

Definition starts_with_slash (p : string) : bool :=
  match p with
  | String c _ => is_slash c
  | EmptyString => false
  end.

Definition ends_with_slash (p : string) : bool :=
  match reverse (chars p) with
  | c :: _ => is_slash c
  | [] => false
  end.

(** [path.normalize]. *)
Definition normalize (p : string) : string :=
  if bool_decide (p = "") then "."
  else
    let isAbsolute := starts_with_slash p in
    let trailingSeparator := ends_with_slash p in
    let res := intercalate (reverse (normalizeString (negb isAbsolute) [] (split p))) in
    if bool_decide (res = "") then
      if isAbsolute then "/" else if trailingSeparator then "./" else "."
    else
      let res := if trailingSeparator then res +:+ "/" else res in
      if isAbsolute then "/" +:+ res else res.

(** [path.join(a, b)] on two strings. *)
Definition join (a b : string) : string :=
  let joined :=
    if bool_decide (a = "") then b
    else if bool_decide (b = "") then a
    else a +:+ "/" +:+ b in
  if bool_decide (joined = "") then "." else normalize joined.

(** The last component of a path, trailing separators ignored, and the
    separators that trail it. *)
Definition last_component (p : string) : string :=
  of_chars (reverse (take_while (fun c => negb (is_slash c))
                       (drop_while is_slash (reverse (chars p))))).

Definition trailing_slashes (p : string) : string :=
  of_chars (take_while is_slash (reverse (chars p))).

(** [path.dirname]: the path up to the separators that precede its last
    component; "." when there is none, the root for a component directly
    under it. *)
Definition dirname (p : string) : string :=
  match p with
  | EmptyString => "."
  | String c0 rest =>
      let hasRoot := is_slash c0 in
      let r := drop_while (fun c => negb (is_slash c))
                 (drop_while is_slash (reverse (chars rest))) in
      match r with
      | [] => if hasRoot then "/" else "."
      | _ :: before =>
          if hasRoot && bool_decide (before = []) then "//"
          else String c0 (of_chars (reverse before))
      end
  end.

(** [path.extname]: the last component from its last dot on; empty when
    the component has no dot, starts with its only dot, or is "..". *)
Definition extname (p : string) : string :=
  let c := last_component p in
  let after := take_while (fun a => negb (bool_decide (a = dot))) (reverse (chars c)) in
  if bool_decide (dot ∈ chars c) then
    if bool_decide (length after + 1 = length (chars c)) then ""
    else if bool_decide (c = "..") then ""
    else of_chars (dot :: reverse after)
  else "".

(** [s] without [suffix], when it ends with it. *)
Definition strip_suffix (suffix s : string) : option string :=
  let n := String.length s - String.length suffix in
  if bool_decide (String.length suffix <= String.length s
                  /\ of_chars (drop n (chars s)) = suffix)
  then Some (of_chars (take n (chars s)))
  else None.

(** [path.basename(p, ext)]: the last component, without [ext] when it
    ends with it and is more than it.  When the component is shorter than
    [ext] and ends it, Node returns the component with the separators that
    trail it. *)
Definition basename (p ext : string) : string :=
  let c := last_component p in
  if bool_decide (ext <> "" /\ String.length ext <= String.length p) then
    if bool_decide (ext = p) then ""
    else match strip_suffix ext c with
         | Some "" => c
         | Some stem => stem
         | None =>
             match strip_suffix c ext with
             | Some _ => c +:+ trailing_slashes p
             | None => c
             end
         end
  else c.

End path.

(** ** The filesystem *)

(** An entry of the filesystem is named by its components from the root.
    The filesystem is the finite set of the entries that exist; the root
    always exists.  There are no symbolic links: a path is resolved
    lexically, against the working directory when it is relative. *)
Definition fspath : Type := list string.
Definition filesystem : Type := gset fspath.

Record env : Type := {
  __dirname : string;   (* directory of the script, absolute *)
  cwd : string          (* working directory of the process, absolute *)
}.

Definition resolve (e : env) (p : string) : fspath :=
  let segs :=
    if path.starts_with_slash p then path.split p
    else path.split (cwd e) ++ path.split p in
  reverse (path.normalizeString false [] segs).

Definition entry_exists (fs : filesystem) (q : fspath) : bool :=
  bool_decide (q = [] \/ q ∈ fs).

(** [fs.existsSync]. *)
Definition existsSync (e : env) (fs : filesystem) (p : string) : bool :=
  entry_exists fs (resolve e p).

Definition parent (q : fspath) : fspath := removelast q.

(** [fs.mkdirSync] without the recursive option: the directory must not
    exist and its parent must. *)
Definition mkdirSync (e : env) (fs : filesystem) (p : string) : M filesystem :=
  let q := resolve e p in
  if entry_exists fs q then throw (EEXIST p)
  else if entry_exists fs (parent q) then ret ({[ q ]} ∪ fs)
  else throw (ENOENT p).

(** [fs.createWriteStream]: the file is created in its directory, which
    must exist; the stream's error event has no listener, so a failure to
    open is an uncaught exception. *)
Definition createWriteStream (e : env) (fs : filesystem) (p : string) : M filesystem :=
  let q := resolve e p in
  if entry_exists fs (parent q) then ret ({[ q ]} ∪ fs)
  else throw (ENOENT p).

(** [path.join] as the script calls it: on values, a TypeError unless both
    are strings. *)
Definition path_join (a b : JsVal) : M string :=
  match a, b with
  | JStr a, JStr b => ret (path.join a b)
  | _, _ => throw (TypeError "path")
  end.

(** ** AttachmentHandler *)

(** [AttachmentHandler.createDirectorySync] (lines 72-80; lines 53-60 of
    attachmentDownloader.js are the same function without the log call). *)
Definition createDirectorySync (e : env) (fs : filesystem) (dir : JsVal) : M filesystem :=
  letM dirName := path_join (JStr (__dirname e)) dir in
  if negb (existsSync e fs dirName) then mkdirSync e fs dirName
  else ret fs.

(** The body of the [while] loop of [getUniquePath], iterated: [x] is the
    counter, [fuel] bounds the number of iterations. *)
Fixpoint getUniquePath_while (fuel : nat) (e : env) (fs : filesystem)
    (dirPath : string) (x : nat) : option string :=
  match fuel with
  | O => None
  | S fuel' =>
      let ext := path.extname dirPath in
      let dirname := path.dirname dirPath in
      let filename := path.basename dirPath ext in
      let newDirPath :=
        dirname +:+ path.sep +:+ filename +:+ "[" +:+ pretty x +:+ "]" +:+ ext in
      if negb (existsSync e fs newDirPath) then Some newDirPath
      else getUniquePath_while fuel' e fs dirPath (S x)
  end.

Module attachmentDownloader.

(** [AttachmentHandler.getUniquePath] of attachmentDownloader.js (lines
    62-85). *)
Definition getUniquePath (fuel : nat) (e : env) (fs : filesystem)
    (dirPath : string) : option string :=
  if negb (existsSync e fs dirPath) then Some dirPath
  else getUniquePath_while fuel e fs dirPath 1.

End attachmentDownloader.

(** [AttachmentHandler.getUniquePath] (lines 90-116): the path is cleaned
    first, then the search is the one of attachmentDownloader.js. *)
Definition getUniquePath (fuel : nat) (e : env) (fs : filesystem)
    (dirPath : string) : option string :=
  let dirPath := cleanFileName dirPath in
  if negb (existsSync e fs dirPath) then Some dirPath
  else getUniquePath_while fuel e fs dirPath 1.

(** ** HTTP responses and continuations *)

Record response : Type := { statusCode : Z }.

(** The body of a response, given by what [JSON.parse] makes of its text:
    a SyntaxError, or the parsed value. *)
Inductive body_text : Type :=
  | Malformed
  | Json (v : JsVal).

Definition JSON_parse (body : body_text) : M JsVal :=
  match body with
  | Malformed => throw SyntaxError
  | Json v => ret v
  end.

(** One call [callback(err, arg, ...)] of a continuation. *)
Record cbcall : Type := Call { cb_err : JsVal; cb_args : list JsVal }.

(** [waterfall]: a continuation called with a truthy first argument ends
    the pipeline at its final function; otherwise the next task runs on the
    remaining arguments, followed by its own continuation. *)
Inductive wf_next : Type :=
  | WfFinal (err : JsVal)
  | WfTask (args : list JsVal).

Definition wrapIterator (c : cbcall) : wf_next :=
  if truthy (cb_err c) then WfFinal (cb_err c)
  else WfTask (cb_args c ++ [JFun "callback"]).

(** The [n]-th parameter of a function applied to [args]. *)
Definition param (n : nat) (args : list JsVal) : JsVal :=
  default JUndefined (args !! n).

(** A call [f(err, arg, ...)] of a value received as a continuation. *)
Definition call (f : JsVal) (err : JsVal) (args : list JsVal) : M cbcall :=
  match f with
  | JFun _ => ret (Call err args)
  | _ => throw (TypeError "callback")
  end.

(** ** The pipeline of one attachment: [writeAttachment] *)

(** First task, before the request (lines 124-137): the directory of the
    table. *)
Definition task1 (e : env) (fs : filesystem) (att : JsVal) : M filesystem :=
  letM table_name := get att "table_name" in
  createDirectorySync e fs table_name.

(** First task, the callback of the owner request (lines 139-155; lines
    106-122 of attachmentDownloader.js are the same). *)
Definition task1_response (error : JsVal) (resp : response) (body : body_text)
    : M cbcall :=
  if truthy error then ret (Call error [])
  else if negb (truthy error) && negb (statusCode resp =? 200)%Z
  then ret (Call error [])
  else
    letM body := JSON_parse body in
    letM result := get body "result" in
    letM number := get result "number" in
    letM taskNumber :=
      (if truthy number then get result "number" else get result "sys_id") in
    ret (Call JNull [taskNumber]).

(** Second task (lines 158-165): [function (taskNumber, callback)]. *)
Definition task2 (e : env) (fs : filesystem) (att : JsVal) (args : list JsVal)
    : M (filesystem * cbcall) :=
  let taskNumber := param 0 args in
  let callback := param 1 args in
  letM table_name := get att "table_name" in
  letM dirPath := path_join table_name taskNumber in
  letM fs' := createDirectorySync e fs (JStr dirPath) in
  letM c := call callback JNull [JStr dirPath] in
  ret (fs', c).

(** Third task, up to the request (lines 168-185): [function (dirPath,
    callback)].  The search of [getUniquePath] is given as many iterations
    as the filesystem has entries, plus one, which it never exhausts. *)
Definition task3 (e : env) (fs : filesystem) (att : JsVal) (args : list JsVal)
    : M (filesystem * string) :=
  let dirPath := param 0 args in
  letM file_name := get att "file_name" in
  letM joined := path_join dirPath file_name in
  match getUniquePath (S (size fs)) e fs joined with
  | Some filename =>
      letM fs' := createWriteStream e fs filename in
      ret (fs', filename)
  | None => throw (TypeError "getUniquePath")
  end.

(** The final function of the pipeline (lines 199-201): whatever [err] is,
    it calls [cb()], so the dispatcher's callback receives no error. *)
Definition writeAttachment_final (err : JsVal) : JsVal := JUndefined.

(** ** The dispatcher: [async.eachOfLimit] *)

(** The counter [running], the flag [done] and the functions [replenish]
    and [iterateeCallback] are those of the library; [tasks] records the
    pipelines that are between their start and their call of [cb]. *)

Inductive stage : Type :=
  | OwnerResolving
  | Downloading (filename : string).

Record task : Type := {
  key : nat;          (* index of the attachment in the array *)
  att : JsVal;
  stage_of : stage
}.

(** The state of the process during the dispatch.  The percentage that
    the script derives from the two counters is only logged and is left
    out. *)
Record state : Type := {
  files : filesystem;
  percentTotal : Z;
  percentCompleted : Z;
  rest : list (nat * JsVal);   (* elements not handed out yet *)
  running : Z;                 (* counter of eachOfLimit *)
  done : bool;                 (* flag of eachOfLimit *)
  tasks : list task            (* pipelines between their start and [cb()] *)
}.

(** The second argument of [async.eachOfLimit] on line 266. *)
Definition limit : Z := 5.

(** [replenish]: while [running < limit] and not [done], take the next
    element and start its iteratee; [done] is set when none is left. *)
Fixpoint replenish (rest : list (nat * JsVal)) (running : Z) (done : bool)
    (started : list (nat * JsVal))
    : list (nat * JsVal) * Z * bool * list (nat * JsVal) :=
  if (running <? limit)%Z && negb done then
    match rest with
    | [] => (rest, running, true, started)
    | elem :: rest' => replenish rest' (running + 1)%Z done (started ++ [elem])
    end
  else (rest, running, done, started).

(** The iteratee (lines 266-269) starts [writeAttachment], whose first
    task runs on the next tick, in the order of the calls. *)
Fixpoint begin_tasks (e : env) (fs : filesystem) (started : list (nat * JsVal))
    : M (filesystem * list task) :=
  match started with
  | [] => ret (fs, [])
  | (k, a) :: more =>
      letM fs' := task1 e fs a in
      letM r := begin_tasks e fs' more in
      ret (fst r, {| key := k; att := a; stage_of := OwnerResolving |} :: snd r)
  end.

Definition replenish_state (e : env) (s : state) : M state :=
  let '(rest', running', done', started) :=
    replenish (rest s) (running s) (done s) [] in
  letM r := begin_tasks e (files s) started in
  ret {| files := fst r; percentTotal := percentTotal s;
         percentCompleted := percentCompleted s;
         rest := rest'; running := running'; done := done';
         tasks := tasks s ++ snd r |}.

Definition remove_task (k : nat) (ts : list task) : list task :=
  filter (fun t => key t <> k) ts.

Definition find_task (k : nat) (ts : list task) : option task :=
  list_find (fun t => key t = k) ts ≫= (fun r => Some (snd r)).

(** [iterateeCallback(err)], reached through [cb] when the pipeline of the
    attachment with key [k] ends. *)
Definition iterateeCallback (e : env) (s : state) (k : nat) (err : JsVal)
    : M state :=
  let s1 := {| files := files s; percentTotal := percentTotal s;
               percentCompleted := percentCompleted s;
               rest := rest s; running := (running s - 1)%Z; done := done s;
               tasks := remove_task k (tasks s) |} in
  if truthy err then
    ret {| files := files s1; percentTotal := percentTotal s1;
           percentCompleted := percentCompleted s1;
           rest := rest s1; running := running s1; done := true;
           tasks := tasks s1 |}
  else if done s1 && (running s1 <=? 0)%Z then ret s1
  else replenish_state e s1.

(** [async.eachOfLimit(attachments, 5, iteratee)] (lines 262-271). *)
Definition eachOfLimit (e : env) (fs : filesystem) (total : Z)
    (attachments : list JsVal) : M state :=
  replenish_state e
    {| files := fs; percentTotal := total; percentCompleted := 0;
       rest := imap (fun i a => (i, a)) attachments;
       running := 0; done := false; tasks := [] |}.

(** ** The events of a run *)

Inductive event : Type :=
  | OwnerResponse (k : nat) (error : JsVal) (resp : response) (body : body_text)
  | DownloadComplete (k : nat).

Definition set_stage (k : nat) (st : stage) (ts : list task) : list task :=
  (fun t => if decide (key t = k)
            then {| key := key t; att := att t; stage_of := st |} else t) <$> ts.

Definition with_files (s : state) (fs : filesystem) (ts : list task) : state :=
  {| files := fs; percentTotal := percentTotal s;
     percentCompleted := percentCompleted s;
     rest := rest s; running := running s; done := done s; tasks := ts |}.

(** The pipeline of attachment [k] from the callback of its owner request
    to its next request, or to its final function. *)
Definition on_owner_response (e : env) (s : state) (t : task)
    (error : JsVal) (resp : response) (body : body_text) : M state :=
  letM c1 := task1_response error resp body in
  match wrapIterator c1 with
  | WfFinal err => iterateeCallback e s (key t) (writeAttachment_final err)
  | WfTask args2 =>
      letM r2 := task2 e (files s) (att t) args2 in
      match wrapIterator (snd r2) with
      | WfFinal err =>
          iterateeCallback e (with_files s (fst r2) (tasks s)) (key t)
            (writeAttachment_final err)
      | WfTask args3 =>
          letM r3 := task3 e (fst r2) (att t) args3 in
          ret (with_files s (fst r3)
                 (set_stage (key t) (Downloading (snd r3)) (tasks s)))
      end
  end.

(** The handler of the complete event (lines 186-192); the continuation
    of the last task is the final function itself. *)
Definition on_complete (e : env) (s : state) (t : task) : M state :=
  let s1 := {| files := files s; percentTotal := percentTotal s;
               percentCompleted := (percentCompleted s + 1)%Z;
               rest := rest s; running := running s; done := done s;
               tasks := tasks s |} in
  iterateeCallback e s1 (key t) (writeAttachment_final JNull).

(** One event; an event for which no request is pending changes nothing.
    An exception is uncaught: it ends the process. *)
Definition step (e : env) (s : state) (ev : event) : M state :=
  match ev with
  | OwnerResponse k error resp body =>
      match find_task k (tasks s) with
      | Some t =>
          match stage_of t with
          | OwnerResolving => on_owner_response e s t error resp body
          | Downloading _ => ret s
          end
      | None => ret s
      end
  | DownloadComplete k =>
      match find_task k (tasks s) with
      | Some t =>
          match stage_of t with
          | Downloading _ => on_complete e s t
          | OwnerResolving => ret s
          end
      | None => ret s
      end
  end.

Fixpoint run (e : env) (s : state) (evs : list event) : M state :=
  match evs with
  | [] => ret s
  | ev :: more => letM s' := step e s ev in run e s' more
  end.

(** ** The script: configuration, list query, dispatch *)

(** The fields read from the configuration module (lines 12-17); a field
    that the module does not define reads as [undefined]. *)
Record config : Type := {
  instanceName : JsVal;
  userName : JsVal;
  password : JsVal;
  attachmentFilter : JsVal;
  logfile : JsVal
}.

(** The three requests of the script: the list of attachments, the owner
    record of an attachment, the content of an attachment. *)
Inductive request : Type :=
  | ListQuery (filter : JsVal)
  | OwnerQuery (table_name table_sys_id : JsVal)
  | FileQuery (sys_id : JsVal).

(** What the script has done when its top level returns: the requests it
    has issued and, when it has called [process.exit], the exit code. *)
Record startup_result : Type := {
  requests : list request;
  exit_code : option Z
}.

(** Lines 19-22, then the first task of the outer waterfall (lines
    211-226). *)
Definition startup (c : config) : startup_result :=
  if negb (truthy (instanceName c)) || negb (truthy (userName c))
     || negb (truthy (password c)) || negb (truthy (attachmentFilter c))
     || negb (truthy (logfile c))
  then {| requests := []; exit_code := Some 1%Z |}
  else {| requests := [ListQuery (attachmentFilter c)]; exit_code := None |}.

(** The [forEach] of the list callback (lines 244-256): [counter] starts
    at 1, every element is pushed, and the continuation is called when the
    counter equals the length of the result. *)
Fixpoint forEach_push (result_length : Z) (elems : list JsVal) (counter : Z)
    (attachments : list JsVal) (calls : list cbcall)
    : list JsVal * list cbcall :=
  match elems with
  | [] => (attachments, calls)
  | a :: more =>
      let attachments := attachments ++ [a] in
      let calls :=
        if (counter =? result_length)%Z
        then calls ++ [Call JNull [JArr attachments]] else calls in
      forEach_push result_length more (counter + 1)%Z attachments calls
  end.

Inductive list_outcome : Type :=
  | ListExit (code : Z)
  | ListCalls (total : Z) (calls : list cbcall).

(** The callback of the list request (lines 226-259). *)
Definition list_response (error : JsVal) (resp : response) (body : body_text)
    : M list_outcome :=
  if truthy error then ret (ListExit 1)
  else if negb (truthy error) && negb (statusCode resp =? 200)%Z
  then ret (ListExit 1)
  else
    letM body := JSON_parse body in
    letM result := get body "result" in
    match result with
    | JArr elems =>
        let total := Z.of_nat (length elems) in
        ret (ListCalls total (snd (forEach_push total elems 1 [] [])))
    | _ => throw (TypeError "result")
    end.

(** The second task of the outer waterfall (lines 262-271), run once for
    every call of the continuation of the first. *)
Definition second_task (e : env) (fs : filesystem) (total : Z) (args : list JsVal)
    : M state :=
  match param 0 args with
  | JArr attachments => eachOfLimit e fs total attachments
  | _ => throw (TypeError "attachments")
  end.

Inductive run_state : Type :=
  | Exited (code : Z)
  | Idle                      (* nothing pending: no dispatch was started *)
  | Dispatching (s : state).

(** From the response to the list request to the start of the dispatch. *)
Definition after_list (e : env) (fs : filesystem)
    (error : JsVal) (resp : response) (body : body_text) : M run_state :=
  letM o := list_response error resp body in
  match o with
  | ListExit code => ret (Exited code)
  | ListCalls total [] => ret Idle
  | ListCalls total (c :: _) =>
      match wrapIterator c with
      | WfFinal _ => ret Idle
      | WfTask args => letM s := second_task e fs total args in ret (Dispatching s)
      end
  end.

(** The candidate built by iteration [x] of the loop: the counter, in
    brackets, between the base name and the extension. *)
Definition variant (dirPath : string) (x : nat) : string :=
  path.dirname dirPath +:+ path.sep +:+
  path.basename dirPath (path.extname dirPath) +:+
  "[" +:+ pretty x +:+ "]" +:+ path.extname dirPath.

(** The invariant of the dispatcher: the counter of [eachOfLimit] counts
    the pipelines in flight and never exceeds the limit, the keys are
    distinct, and as long as elements remain the limit is reached. *)
Definition keys_fresh (s : state) : Prop :=
  NoDup ((key <$> tasks s) ++ (fst <$> rest s)).

Definition dispatch_inv (s : state) : Prop :=
  running s = Z.of_nat (length (tasks s)) /\
  (running s <= limit)%Z /\
  keys_fresh s /\
  (if done s then rest s = [] else running s = limit).

Definition falsy (v : JsVal) : Prop := truthy v = false.

Definition config_without_logfile : config :=
  {| instanceName := JStr "dev12345"; userName := JStr "admin";
     password := JStr "secret"; attachmentFilter := JStr "table_name=incident";
     logfile := JUndefined |}.

(** Predicates used to state facts about paths. *)
Definition no_slash (s : string) : Prop := path.slash ∉ chars s.

Definition plain_segment (seg : string) : Prop :=
  seg <> "" /\ seg <> "." /\ seg <> "..".

(** ** Sample data *)

(** A script installed in /srv/app and run from there, and the records of
    the scenarios of the specification. *)
Definition demo_env : env := {| __dirname := "/srv/app"; cwd := "/srv/app" |}.
Definition demo_fs : filesystem :=
  {[ ["srv"]; ["srv"; "app"]; ["srv"; "app"; "incident"];
     ["srv"; "app"; "incident"; "INC0010001"];
     ["srv"; "app"; "incident"; "INC0010001"; "log.txt"] ]}.

Definition demo_att (sys_id file_name : string) : JsVal :=
  JObj [("sys_id", JStr sys_id); ("file_name", JStr file_name);
        ("table_name", JStr "incident"); ("table_sys_id", JStr "r1")].

Definition demo_record : body_text :=
  Json (JObj [("result", JObj [("number", JStr "INC0010001"); ("sys_id", JStr "r1")])]).

Definition ok : response := {| statusCode := 200 |}.

Definition base_fs : filesystem := {[ ["srv"]; ["srv"; "app"] ]}.

(** The pipeline that [begin_tasks] records for a handed-out element, and
    the element a pipeline was started from. *)
Definition new_task (elem : nat * JsVal) : task :=
  {| key := fst elem; att := snd elem; stage_of := OwnerResolving |}.

Definition elem_of_task (t : task) : nat * JsVal := (key t, att t).

Definition seven : list JsVal :=
  [demo_att "a0" "f0.txt"; demo_att "a1" "f1.txt"; demo_att "a2" "f2.txt";
   demo_att "a3" "f3.txt"; demo_att "a4" "f4.txt"; demo_att "a5" "f5.txt";
   demo_att "a6" "f6.txt"].

Definition timeout : JsVal := JError "ETIMEDOUT".

Definition three : list JsVal :=
  [demo_att "x" "x.txt"; demo_att "y" "y.txt"; demo_att "z" "z.txt"].

Definition record_with_parentheses : body_text :=
  Json (JObj [("result", JObj [("number", JStr "INC(1)"); ("sys_id", JStr "r1")])]).

(** The keys of the pipelines in flight and of the waiting attachments. *)
Definition in_flight_and_waiting (r : M state) : M (list nat * list nat) :=
  letM s := r in ret (key <$> tasks s, fst <$> rest s).

Definition fs_with_parentheses : filesystem :=
  {[ ["srv"]; ["srv"; "app"]; ["srv"; "app"; "incident"];
     ["srv"; "app"; "incident"; "INC(1)"] ]}.

(** The state of a run of the demo batches, from the dispatch on. *)
Definition run_batch (batch : list JsVal) (evs : list event) : M state :=
  letM s0 := eachOfLimit demo_env base_fs (Z.of_nat (length batch)) batch in
  run demo_env s0 evs.

(** What is left of a run: completed count, keys in flight, keys waiting,
    and whether the given paths exist. *)
Definition summary (r : M state) (paths : list string)
    : M (Z * list nat * list nat * list bool) :=
  letM s := r in
  ret (percentCompleted s, key <$> tasks s, fst <$> rest s,
       existsSync demo_env (files s) <$> paths).

(** ** Further predicates and sample data *)

(** A character that [cleanFileName] keeps. *)
Definition kept (c : ascii) : Prop := (c ∉ denylist) /\ (code c <= 127)%N.



(** The array of attachments with its indices, as [eachOfLimit] iterates
    over it. *)
Definition indexed (attachments : list JsVal) : list (nat * JsVal) :=
  imap (fun i a => (i, a)) attachments.

(** The attachments are handed out in the order of the array: the waiting
    ones are what is left of the array after the first [n], and every
    pipeline in flight carries the element found at its key, before [n]. *)
Definition order_inv (attachments : list JsVal) (s : state) : Prop :=
  exists n,
    rest s = drop n (indexed attachments) /\
    forall t, t ∈ tasks s ->
              key t < n /\ attachments !! key t = Some (att t).


(** ** The script of attachmentDownloader.js *)

Module attachmentDownloader_js.

(** The [forEach] of the list callback (lines 197-199): every element is
    pushed on [attachments]. *)
Definition forEach_collect (elems : list JsVal) : list JsVal :=
  fold_left (fun attachments a => attachments ++ [a]) elems [].

(** The callback of the list request (lines 184-202): it always ends in
    one call of the continuation, unless it throws. *)
Definition list_callback (error : JsVal) (resp : response) (body : body_text)
    : M cbcall :=
  if truthy error then ret (Call error [])
  else if negb (truthy error) && negb (statusCode resp =? 200)%Z
  then ret (Call error [])
  else
    letM body := JSON_parse body in
    letM result := get body "result" in
    match result with
    | JArr elems => ret (Call JNull [JArr (forEach_collect elems)])
    | _ => throw (TypeError "result")
    end.

(** The second task (lines 205-212): [attachments.length] is read for the
    log, then [forEach] starts [writeAttachment] for every element; the
    first tasks run on the next tick, in the order of the calls. *)
Definition start_all (e : env) (fs : filesystem) (args : list JsVal)
    : M (filesystem * list task) :=
  match param 0 args with
  | JArr attachments => begin_tasks e fs (indexed attachments)
  | JUndefined | JNull => throw (TypeError "length")
  | _ => throw (TypeError "forEach")
  end.

(** From the response to the list request to the start of the pipelines;
    [None] when the outer waterfall ends in its final function, which does
    nothing (lines 214-215). *)
Definition after_list_query (e : env) (fs : filesystem)
    (error : JsVal) (resp : response) (body : body_text)
    : M (option (filesystem * list task)) :=
  letM c := list_callback error resp body in
  match wrapIterator c with
  | WfFinal _ => ret None
  | WfTask args => letM r := start_all e fs args in ret (Some r)
  end.

End attachmentDownloader_js.

(** The attachment with key [k] is neither in flight nor waiting. *)
Definition gone (k : nat) (s : state) : Prop :=
  (forall t, t ∈ tasks s -> key t <> k) /\
  (forall elem, elem ∈ rest s -> fst elem <> k).

Definition record_without_label : body_text :=
  Json (JObj [("result", JObj [("short_description", JStr "printer")])]).
(** ** Properties of [cleanFileName] *)

Lemma chars_replace_class cls s :
  chars (replace_class cls s) = filter (fun c => cls c = false) (chars s).
Proof.
  induction s as [|c s IH]; simpl; [reflexivity|].
  destruct (cls c) eqn:E.
  - rewrite filter_cons_False by (rewrite E; discriminate). exact IH.
  - rewrite filter_cons_True by exact E. simpl. now rewrite IH.
Qed.

Lemma chars_inj s1 s2 : chars s1 = chars s2 -> s1 = s2.
Proof.
  revert s2; induction s1 as [|c s1 IH]; intros [|c2 s2] H; simpl in H;
    try discriminate; [reflexivity|].
  injection H as -> H. f_equal. now apply IH.
Qed.

Lemma chars_app s1 s2 : chars (s1 +:+ s2) = chars s1 ++ chars s2.
Proof.
  induction s1 as [|c s1 IH]; [reflexivity|].
  change (String c s1 +:+ s2) with (String c (s1 +:+ s2)).
  simpl. now rewrite IH.
Qed.

(** C7: [cleanFileName] removes every character of the denylist and every
    character outside the ASCII range, keeps every other character in its
    place, and its result depends on the input string alone (the embedding
    takes no filesystem or other state and returns none). *)
Theorem cleanFileName_removes_denied_and_non_ascii :
  forall filename : string,
    (forall c, c ∈ chars (cleanFileName filename) ->
               (c ∉ denylist) /\ (code c <= 127)%N) /\
    chars (cleanFileName filename) =
      filter (fun c => (c ∉ denylist) /\ (code c <= 127)%N) (chars filename) /\
    (forall r1 r2, r1 = cleanFileName filename -> r2 = cleanFileName filename ->
                   r1 = r2).
Proof.
  intros filename.
  assert (Hchars : chars (cleanFileName filename) =
      filter (fun c => (c ∉ denylist) /\ (code c <= 127)%N) (chars filename)).
  { unfold cleanFileName. rewrite !chars_replace_class.
    rewrite list_filter_filter. apply list_filter_iff; intros c.
    unfold in_denylist, non_ascii.
    rewrite bool_decide_eq_false, negb_false_iff, N.leb_le. tauto. }
  split; [|split].
  - intros c Hc. rewrite Hchars in Hc.
    apply list_elem_of_filter in Hc. tauto.
  - exact Hchars.
  - intros r1 r2 -> ->. reflexivity.
Qed.

Example cleanFileName_example : cleanFileName "r&d (final).txt" = "rd final.txt".
Proof. reflexivity. Qed.

(** ** Strings as lists of characters *)

Lemma chars_of_chars l : chars (path.of_chars l) = l.
Proof. induction l as [|c l IH]; simpl; [reflexivity|now rewrite IH]. Qed.


Lemma string_app_cons c s t : String c s +:+ t = String c (s +:+ t).
Proof. reflexivity. Qed.

Lemma string_app_nil s : "" +:+ s = s.
Proof. reflexivity. Qed.

Lemma string_app_assoc s t u : (s +:+ t) +:+ u = s +:+ (t +:+ u).
Proof. apply chars_inj. rewrite !chars_app. symmetry. apply (assoc_L (++)). Qed.

Lemma string_app_inv_tail s t u : s +:+ u = t +:+ u -> s = t.
Proof.
  intros H. apply chars_inj. apply (f_equal chars) in H.
  rewrite !chars_app in H. now apply app_inv_tail in H.
Qed.

Lemma no_slash_app s t : no_slash s -> no_slash t -> no_slash (s +:+ t).
Proof.
  unfold no_slash. rewrite chars_app, elem_of_app. tauto.
Qed.

(** ** Splitting and normalising *)

Lemma split_nonempty s : path.split s <> [].
Proof.
  destruct s as [|c s]; simpl; [discriminate|].
  destruct (path.is_slash c); [discriminate|].
  destruct (path.split s); discriminate.
Qed.

Lemma split_app_no_slash s t :
  no_slash t ->
  exists init last,
    path.split s = init ++ [last] /\ path.split (s +:+ t) = init ++ [last +:+ t].
Proof.
  intros Ht. induction s as [|c s IH].
  - exists [], "". split; [reflexivity|].
    rewrite string_app_nil. simpl.
    induction t as [|c t IHt]; [reflexivity|].
    assert (Hc : path.is_slash c = false).
    { unfold path.is_slash. apply bool_decide_eq_false. intros ->.
      apply Ht. simpl. apply list_elem_of_here. }
    assert (Ht' : no_slash t).
    { intros Hin. apply Ht. simpl. now apply list_elem_of_further. }
    simpl. rewrite Hc, (IHt Ht'). reflexivity.
  - destruct IH as (init & last & Hs & Hst).
    rewrite string_app_cons. simpl. destruct (path.is_slash c).
    + exists ("" :: init), last. rewrite Hs, Hst. split; reflexivity.
    + rewrite Hs, Hst. destruct init as [|seg init]; simpl.
      * exists [], (String c last). split; reflexivity.
      * exists (String c seg :: init), last. split; reflexivity.
Qed.

Lemma normalizeString_snoc allow res segs seg :
  plain_segment seg ->
  path.normalizeString allow res (segs ++ [seg])
  = seg :: path.normalizeString allow res segs.
Proof.
  intros (H0 & H1 & H2). revert res.
  induction segs as [|s segs IH]; intros res; simpl.
  - rewrite bool_decide_eq_false_2 by tauto.
    rewrite bool_decide_eq_false_2 by tauto. reflexivity.
  - apply IH.
Qed.

Lemma bracket_plain s t : plain_segment (s +:+ "[" +:+ t).
Proof.
  assert (Hin : "["%char ∈ chars (s +:+ "[" +:+ t)).
  { rewrite chars_app. apply elem_of_app. right.
    change ("[" +:+ t) with (String "[" t). simpl. apply list_elem_of_here. }
  repeat split; intros E; rewrite E in Hin; simpl in Hin;
    repeat (apply elem_of_cons in Hin as [Hin|Hin]; [discriminate|]);
    now apply elem_of_nil in Hin.
Qed.

Lemma take_while_elem_of {A} (p : A -> bool) l a :
  a ∈ path.take_while p l -> a ∈ l /\ p a = true.
Proof.
  induction l as [|b l IH]; simpl; [intros H; now apply elem_of_nil in H|].
  destruct (p b) eqn:E; [|intros H; now apply elem_of_nil in H].
  intros [->|H]%elem_of_cons.
  - split; [apply list_elem_of_here|exact E].
  - destruct (IH H) as [? ?]. split; [now apply list_elem_of_further|easy].
Qed.

Lemma last_component_no_slash p : no_slash (path.last_component p).
Proof.
  unfold no_slash, path.last_component. rewrite chars_of_chars.
  rewrite elem_of_reverse. intros [_ H]%take_while_elem_of.
  unfold path.is_slash in H. rewrite bool_decide_eq_true_2 in H by reflexivity.
  discriminate.
Qed.

Lemma extname_no_slash p : no_slash (path.extname p).
Proof.
  unfold path.extname.
  assert (Hnil : no_slash "") by (intros H; now apply elem_of_nil in H).
  repeat case_bool_decide; try exact Hnil.
  unfold no_slash. rewrite chars_of_chars.
  intros [E|Hin]%elem_of_cons; [discriminate|].
  rewrite elem_of_reverse in Hin.
  apply take_while_elem_of in Hin as [Hin _].
  rewrite elem_of_reverse in Hin. now apply (last_component_no_slash p).
Qed.

Lemma pretty_N_char_no_slash x : pretty_N_char x <> path.slash.
Proof. unfold pretty_N_char. repeat case_match; discriminate. Qed.

Lemma pretty_N_go_no_slash x s : no_slash s -> no_slash (pretty_N_go x s).
Proof.
  revert s. induction (N.lt_wf_0 x) as [x _ IH]; intros s Hs.
  destruct (decide (x = 0)%N) as [->|Hx]; [now rewrite pretty_N_go_0|].
  rewrite pretty_N_go_step by lia. apply IH.
  - apply N.div_lt; lia.
  - intros [E|H]%elem_of_cons; [|now apply Hs].
    now apply (pretty_N_char_no_slash (x `mod` 10)%N).
Qed.

Lemma pretty_nat_no_slash (x : nat) : no_slash (pretty x).
Proof.
  unfold pretty, pretty_nat, pretty, pretty_N.
  case_decide as Hx.
  - intros [E|H]%elem_of_cons; [discriminate|now apply elem_of_nil in H].
  - apply pretty_N_go_no_slash. intros H'. now apply elem_of_nil in H'.
Qed.

(** ** The extension and the base name make up the last component *)

Lemma string_length_chars s : String.length s = length (chars s).
Proof. induction s as [|c s IH]; simpl; [reflexivity|now rewrite IH]. Qed.










(** ** The candidates of [getUniquePath] name distinct entries *)

Lemma starts_with_slash_app s t :
  path.starts_with_slash t = false ->
  path.starts_with_slash (s +:+ t) = path.starts_with_slash s.
Proof. destruct s; [intros H; exact H|reflexivity]. Qed.

Lemma resolve_variant e dirPath :
  exists before stem,
    forall x, resolve e (variant dirPath x)
              = before ++ [stem +:+ "[" +:+ pretty x +:+ "]" +:+ path.extname dirPath].
Proof.
  set (a := path.dirname dirPath +:+ path.sep +:+
            path.basename dirPath (path.extname dirPath)).
  set (tail := fun x : nat => "[" +:+ pretty x +:+ "]" +:+ path.extname dirPath).
  assert (Hv : forall x, variant dirPath x = a +:+ tail x).
  { intros x. unfold variant, a, tail. now rewrite !string_app_assoc. }
  assert (Htail : forall x, no_slash (tail x)).
  { intros x. unfold tail.
    apply (no_slash_app "["); [|apply no_slash_app; [apply pretty_nat_no_slash|]].
    - intros [E|H]%elem_of_cons; [discriminate|now apply elem_of_nil in H].
    - apply (no_slash_app "]"); [|apply extname_no_slash].
      intros [E|H]%elem_of_cons; [discriminate|now apply elem_of_nil in H]. }
  destruct (path.split a) as [|s0 l0] eqn:Hsplit;
    [now apply split_nonempty in Hsplit|].
  destruct (split_app_no_slash a (tail 0) (Htail 0)) as (init & last & Ha & _).
  set (pre := if path.starts_with_slash a then [] else path.split (cwd e)).
  exists (reverse (path.normalizeString false [] (pre ++ init))), last.
  intros x. rewrite Hv. unfold resolve.
  rewrite starts_with_slash_app by reflexivity. fold pre.
  destruct (split_app_no_slash a (tail x) (Htail x)) as (init' & last' & Ha' & Hx).
  rewrite Ha in Ha'. apply app_inj_tail in Ha' as [<- <-].
  assert (Hsegs : (if path.starts_with_slash a then path.split (a +:+ tail x)
                   else path.split (cwd e) ++ path.split (a +:+ tail x))
                  = (pre ++ init) ++ [last +:+ tail x]).
  { unfold pre. rewrite Hx. destruct (path.starts_with_slash a);
      [reflexivity|now rewrite (assoc_L (++))]. }
  rewrite Hsegs, normalizeString_snoc by apply bracket_plain.
  now rewrite reverse_cons.
Qed.

Lemma resolve_variant_inj e dirPath x y :
  resolve e (variant dirPath x) = resolve e (variant dirPath y) -> x = y.
Proof.
  destruct (resolve_variant e dirPath) as (before & stem & H).
  rewrite !H. intros E. apply app_inv_head in E. injection E as E.
  apply (inj (String.app stem)) in E. injection E as E.
  rewrite !string_app_nil in E.
  apply string_app_inv_tail in E. now apply (inj pretty) in E.
Qed.

(** A finite filesystem cannot hold all the candidates: one of the first
    [size fs + 1] is free. *)
Lemma some_variant_free e (fs : filesystem) dirPath :
  exists k, 1 <= k <= S (size fs) /\ existsSync e fs (variant dirPath k) = false.
Proof.
  set (free := fun k => existsSync e fs (variant dirPath k) = false).
  destruct (decide (Exists free (seq 1 (S (size fs))))) as [Hex|Hno].
  - apply Exists_exists in Hex as (k & Hk & Hfree).
    apply elem_of_seq in Hk. exists k. split; [lia|exact Hfree].
  - exfalso. apply not_Exists_Forall in Hno; [|intros k; unfold free; apply _].
    rewrite Forall_forall in Hno.
    set (f := fun k => resolve e (variant dirPath k)).
    assert (Hinj : Inj (=) (=) f) by (intros x y; apply resolve_variant_inj).
    assert (Hsub : list_to_set (f <$> seq 1 (S (size fs))) ⊆ fs).
    { intros q [k [-> Hk]]%elem_of_list_to_set%list_elem_of_fmap.
      specialize (Hno k Hk). unfold free, compose, existsSync, entry_exists in Hno.
      apply not_false_is_true, bool_decide_eq_true in Hno as [Hroot|Hin];
        [|exact Hin].
      unfold f. destruct (resolve_variant e dirPath) as (before & stem & Hr).
      rewrite Hr in Hroot. now destruct before. }
    apply subseteq_size in Hsub.
    rewrite size_list_to_set in Hsub by (apply NoDup_fmap_2, NoDup_seq; exact Hinj).
    rewrite length_fmap, length_seq in Hsub. lia.
Qed.

(** The loop returns the first free candidate at or after its counter,
    provided one lies within reach of the fuel. *)
Lemma getUniquePath_while_first_free e fs dirPath :
  forall m fuel x,
    m <= fuel ->
    (exists k, x <= k < x + m /\ existsSync e fs (variant dirPath k) = false) ->
    exists k, x <= k /\
      getUniquePath_while fuel e fs dirPath x = Some (variant dirPath k) /\
      existsSync e fs (variant dirPath k) = false /\
      (forall j, x <= j < k -> existsSync e fs (variant dirPath j) = true).
Proof.
  induction m as [|m IH]; intros fuel x Hfuel (k & Hk & Hfree); [lia|].
  destruct fuel as [|fuel]; [lia|]. simpl.
  fold (variant dirPath x).
  destruct (existsSync e fs (variant dirPath x)) eqn:Hx; simpl.
  - destruct (IH fuel (S x)) as (k' & Hk' & Hret & Hfree' & Hbelow).
    + lia.
    + exists k. split; [|exact Hfree].
      assert (k <> x) by (intros ->; congruence). lia.
    + exists k'. repeat split; [lia|exact Hret|exact Hfree'|].
      intros j Hj. destruct (decide (j = x)) as [->|Hne]; [exact Hx|].
      apply Hbelow. lia.
  - exists x. repeat split; [lia|exact Hx|]. intros j Hj. lia.
Qed.

(** With one iteration more than the filesystem has entries, the search
    of [getUniquePath] returns a path. *)
Lemma getUniquePath_returns e fs dirPath :
  exists filename, getUniquePath (S (size fs)) e fs dirPath = Some filename.
Proof.
  unfold getUniquePath.
  destruct (existsSync e fs (cleanFileName dirPath)); simpl; [|eauto].
  destruct (some_variant_free e fs (cleanFileName dirPath)) as (k & Hk & Hfree).
  destruct (getUniquePath_while_first_free e fs (cleanFileName dirPath)
              (S (size fs)) (S (size fs)) 1) as (k' & _ & Hret & _).
  - lia.
  - exists k. split; [lia|exact Hfree].
  - simpl in Hret. eauto.
Qed.



(** The scenario of two attachments named log.txt under the same record:
    the second one is stored as log[1].txt. *)
Example getUniquePath_second_log :
  getUniquePath 6 demo_env demo_fs "incident/INC0010001/log.txt"
  = Some "incident/INC0010001/log[1].txt".
Proof. vm_compute. reflexivity. Qed.

(** ** The owner label *)

(** C4: the label passed on by the callback of the owner request is the
    [number] field of the fetched record when that field is a non-empty
    string, and the record's [sys_id] field when [number] is missing or
    empty. *)
Theorem owner_label_number_or_sys_id :
  forall (error : JsVal) (resp : response) (top props : list (string * JsVal)),
    truthy error = false ->
    statusCode resp = 200%Z ->
    assoc "result" top = JObj props ->
    (forall s, assoc "number" props = JStr s -> s <> "" ->
       task1_response error resp (Json (JObj top)) = ret (Call JNull [JStr s])) /\
    (assoc "number" props = JUndefined \/ assoc "number" props = JStr "" ->
       task1_response error resp (Json (JObj top))
       = ret (Call JNull [assoc "sys_id" props])).
Proof.
  intros error resp top props Herr Hstatus Hresult.
  unfold task1_response. rewrite Herr, Hstatus. simpl. rewrite Hresult. simpl.
  split.
  - intros s Hs Hne. rewrite Hs. simpl.
    destruct (String.eqb_spec s ""); [contradiction|]. reflexivity.
  - intros [H|H]; rewrite H; reflexivity.
Qed.

Lemma owner_label_number_or_sys_id_witness :
  task1_response JNull ok demo_record = ret (Call JNull [JStr "INC0010001"]).
Proof.
  refine (proj1 (owner_label_number_or_sys_id JNull ok
            [("result", JObj [("number", JStr "INC0010001"); ("sys_id", JStr "r1")])]
            [("number", JStr "INC0010001"); ("sys_id", JStr "r1")] _ _ _)
            "INC0010001" _ _).
  - reflexivity.
  - reflexivity.
  - reflexivity.
  - reflexivity.
  - discriminate.
Defined.

(** A record without a task number is labelled by its identifier. *)
Example owner_label_without_number :
  task1_response JNull ok (Json (JObj [("result", JObj [("sys_id", JStr "83e2d355")])]))
  = ret (Call JNull [JStr "83e2d355"]).
Proof. reflexivity. Qed.

(** ** A status other than 200 on the owner request *)

Lemma task1_response_not_200 error resp body :
  truthy error = false ->
  statusCode resp <> 200%Z ->
  task1_response error resp body = ret (Call error []).
Proof.
  intros Herr Hstatus. unfold task1_response. rewrite Herr. simpl.
  destruct (Z.eqb_spec (statusCode resp) 200); [contradiction|reflexivity].
Qed.

(** C1 (what the code does): when the owner request comes back without a
    transport error and with a status other than 200, the callback calls
    its continuation with the falsy [error], so [waterfall] does not reach
    the final function: it runs the second task, with no task number. *)
Theorem owner_status_not_200_runs_second_task :
  forall (error : JsVal) (resp : response) (body : body_text),
    truthy error = false ->
    statusCode resp <> 200%Z ->
    task1_response error resp body = ret (Call error []) /\
    wrapIterator (Call error []) = WfTask [JFun "callback"].
Proof.
  intros error resp body Herr Hstatus. split.
  - now apply task1_response_not_200.
  - unfold wrapIterator. simpl. now rewrite Herr.
Qed.

Lemma owner_status_not_200_runs_second_task_witness :
  task1_response JNull {| statusCode := 500 |} Malformed = ret (Call JNull []) /\
  wrapIterator (Call JNull []) = WfTask [JFun "callback"].
Proof.
  apply (owner_status_not_200_runs_second_task JNull {| statusCode := 500 |} Malformed).
  - reflexivity.
  - simpl. lia.
Defined.

(** The second task then receives its own continuation as the task number
    and [path.join] raises a TypeError, whatever the attachment is. *)
Lemma task2_without_task_number e fs a :
  exists err, task2 e fs a [JFun "callback"] = throw err.
Proof.
  unfold task2, param. simpl.
  destruct (get a "table_name") as [err|v]; simpl; [now exists err|].
  exists (TypeError "path"). now destruct v.
Qed.

(** So a status other than 200 for an attachment in flight ends the whole
    run with an uncaught exception. *)
Lemma owner_status_not_200_ends_run e s k t error resp body :
  find_task k (tasks s) = Some t ->
  stage_of t = OwnerResolving ->
  truthy error = false ->
  statusCode resp <> 200%Z ->
  exists err, step e s (OwnerResponse k error resp body) = throw err.
Proof.
  intros Hfind Hstage Herr Hstatus. simpl. rewrite Hfind, Hstage.
  unfold on_owner_response.
  rewrite (task1_response_not_200 error resp body Herr Hstatus). simpl.
  unfold wrapIterator. simpl. rewrite Herr. simpl.
  destruct (task2_without_task_number e (files s) (att t)) as [err ->].
  now exists err.
Qed.

(** ** The configuration check *)

(** C8, as the code has it: the script exits with code 1, before any
    request, exactly when one of the five fields it reads (instance name,
    user name, password, attachment filter, log file) is missing or
    otherwise falsy; in every other case it does not exit and issues the
    list request. *)
Theorem startup_exits_iff_field_missing :
  forall c : config,
    (startup c = {| requests := []; exit_code := Some 1%Z |} <->
       falsy (instanceName c) \/ falsy (userName c) \/ falsy (password c) \/
       falsy (attachmentFilter c) \/ falsy (logfile c)) /\
    (exit_code (startup c) = None <->
       startup c = {| requests := [ListQuery (attachmentFilter c)];
                      exit_code := None |}).
Proof.
  intros c. unfold startup, falsy.
  destruct (truthy (instanceName c)), (truthy (userName c)),
    (truthy (password c)), (truthy (attachmentFilter c)),
    (truthy (logfile c)); simpl;
    (split; split; intros H; try discriminate H; try reflexivity; try tauto);
    try (repeat destruct H as [H|H]; discriminate H).
Qed.

(** C8, as stated, fails: with the four required fields present and no log
    file configured, the script exits with code 1 without issuing a
    request. *)
Lemma startup_exits_without_logfile :
  truthy (instanceName config_without_logfile) = true /\
  truthy (userName config_without_logfile) = true /\
  truthy (password config_without_logfile) = true /\
  truthy (attachmentFilter config_without_logfile) = true /\
  logfile config_without_logfile = JUndefined /\
  startup config_without_logfile = {| requests := []; exit_code := Some 1%Z |}.
Proof. repeat split. Qed.

(** ** The list query *)

Lemma forEach_push_calls n : forall elems counter attachments calls,
  (counter + Z.of_nat (length elems) = n + 1)%Z ->
  elems <> [] ->
  forEach_push n elems counter attachments calls
  = (attachments ++ elems, calls ++ [Call JNull [JArr (attachments ++ elems)]]).
Proof.
  induction elems as [|a elems IH]; intros counter attachments calls Hn Hne;
    [contradiction|].
  simpl. destruct elems as [|b elems].
  - simpl in Hn. replace (counter =? n)%Z with true
      by (symmetry; apply Z.eqb_eq; lia). reflexivity.
  - replace (counter =? n)%Z with false
      by (symmetry; apply Z.eqb_neq; simpl length in Hn; lia).
    rewrite IH; [|simpl length in *; lia|discriminate].
    now rewrite <- (assoc_L (++)).
Qed.

(** C10: when the list query succeeds with an empty result array, the
    callback of the list request never calls the continuation of the first
    task, so the second task (the dispatch) never runs and nothing is
    pending; the continuation is called, once, only by the iteration over
    a non-empty array. *)
Theorem empty_list_never_continues :
  forall (e : env) (fs : filesystem) (error : JsVal) (resp : response)
         (top : list (string * JsVal)),
    truthy error = false ->
    statusCode resp = 200%Z ->
    (assoc "result" top = JArr [] ->
       list_response error resp (Json (JObj top)) = ret (ListCalls 0 []) /\
       after_list e fs error resp (Json (JObj top)) = ret Idle) /\
    (forall elems, assoc "result" top = JArr elems -> elems <> [] ->
       list_response error resp (Json (JObj top))
       = ret (ListCalls (Z.of_nat (length elems)) [Call JNull [JArr elems]])).
Proof.
  intros e fs error resp top Herr Hstatus.
  unfold after_list, list_response. rewrite Herr, Hstatus. simpl. split.
  - intros ->. split; reflexivity.
  - intros elems -> Hne.
    rewrite (forEach_push_calls (Z.of_nat (length elems))); [reflexivity|lia|exact Hne].
Qed.

Lemma empty_list_never_continues_witness :
  after_list demo_env base_fs JNull ok (Json (JObj [("result", JArr [])])) = ret Idle.
Proof.
  refine (proj2 (proj1 (empty_list_never_continues demo_env base_fs JNull ok
            [("result", JArr [])] _ _) _)); reflexivity.
Defined.

(** ** The dispatcher keeps at most five pipelines in flight *)

Lemma replenish_spec : forall r n d st r' n' d' st',
  replenish r n d st = (r', n', d', st') ->
  (n <= limit)%Z ->
  (d = true -> r = []) ->
  exists new,
    st' = st ++ new /\ r = new ++ r' /\
    n' = (n + Z.of_nat (length new))%Z /\
    (n' <= limit)%Z /\
    (if d' then r' = [] else n' = limit).
Proof.
  induction r as [|elem r IH]; intros n d st r' n' d' st' H Hle Hdone.
  - exists []. simpl in H.
    destruct (Z.ltb_spec n limit), d; simpl in H;
      injection H as <- <- <- <-; rewrite ?app_nil_r; simpl;
      repeat split; try lia; auto.
  - simpl in H. destruct d; [now specialize (Hdone eq_refl)|].
    destruct (Z.ltb_spec n limit); simpl in H.
    + apply IH in H as (new & -> & -> & -> & Hle' & Hd); [|lia|discriminate].
      exists (elem :: new). rewrite <- (assoc_L (++)). simpl length.
      repeat split; try lia; auto.
    + injection H as <- <- <- <-. exists []. rewrite app_nil_r. simpl.
      repeat split; try lia.
Qed.

Lemma begin_tasks_keys e : forall started fs r,
  begin_tasks e fs started = inr r -> key <$> snd r = fst <$> started.
Proof.
  induction started as [|[k a] more IH]; intros fs r H; simpl in H.
  - injection H as <-. reflexivity.
  - destruct (task1 e fs a) as [err|fs']; simpl in H; [discriminate|].
    destruct (begin_tasks e fs' more) as [err|r'] eqn:E; simpl in H; [discriminate|].
    injection H as <-. simpl. f_equal. exact (IH _ _ E).
Qed.

Lemma replenish_state_inv e s s' :
  running s = Z.of_nat (length (tasks s)) ->
  (running s <= limit)%Z ->
  keys_fresh s ->
  (done s = true -> rest s = []) ->
  replenish_state e s = inr s' ->
  dispatch_inv s'.
Proof.
  intros Hrun Hle Hkeys Hdone H. unfold replenish_state in H.
  destruct (replenish (rest s) (running s) (done s) [])
    as [[[rest' running'] done'] started] eqn:E.
  apply replenish_spec in E as (new & Hst & Hrest & Hrun' & Hle' & Hd); auto.
  simpl in Hst. subst started.
  destruct (begin_tasks e (files s) new) as [err|r] eqn:Eb; simpl in H; [discriminate|].
  injection H as <-. apply begin_tasks_keys in Eb.
  unfold dispatch_inv, keys_fresh; simpl. repeat split; auto.
  - rewrite length_app, Hrun', Hrun.
    rewrite <- (length_fmap key (snd r)), Eb, length_fmap. lia.
  - unfold keys_fresh in Hkeys. rewrite Hrest, fmap_app in Hkeys.
    rewrite fmap_app, Eb, <- (assoc_L (++)). exact Hkeys.
Qed.

Lemma find_task_Some k ts t :
  find_task k ts = Some t -> t ∈ ts /\ key t = k.
Proof.
  unfold find_task. destruct (list_find _ ts) as [[i t']|] eqn:E; simpl; [|discriminate].
  intros [= <-]. apply list_find_Some in E as (Hl & Hk & _).
  split; [now apply list_elem_of_lookup_2 in Hl|exact Hk].
Qed.

Lemma remove_task_length k ts t :
  NoDup (key <$> ts) -> t ∈ ts -> key t = k ->
  S (length (remove_task k ts)) = length ts.
Proof.
  unfold remove_task. induction ts as [|t' ts IH]; intros Hnd Hin Hk.
  - now apply elem_of_nil in Hin.
  - rewrite fmap_cons in Hnd. apply NoDup_cons in Hnd as [Hnotin Hnd].
    destruct (decide (key t' = k)) as [Heq|Hne].
    + rewrite filter_cons_False by tauto. simpl. f_equal.
      clear IH Hin. induction ts as [|t2 ts IH2]; [reflexivity|].
      rewrite fmap_cons in Hnotin, Hnd. apply NoDup_cons in Hnd as [_ Hnd].
      rewrite not_elem_of_cons in Hnotin. destruct Hnotin as [Hne2 Hnotin].
      rewrite filter_cons_True by congruence. simpl. f_equal. now apply IH2.
    + rewrite filter_cons_True by exact Hne. simpl. f_equal.
      apply elem_of_cons in Hin as [->|Hin]; [contradiction|]. now apply IH.
Qed.

Lemma remove_task_keys_sublist k ts :
  sublist (key <$> remove_task k ts) (key <$> ts).
Proof.
  unfold remove_task. apply fmap_sublist, sublist_filter.
Qed.

Lemma iterateeCallback_inv e s k t s' :
  dispatch_inv s ->
  find_task k (tasks s) = Some t ->
  iterateeCallback e s k JUndefined = inr s' ->
  dispatch_inv s'.
Proof.
  intros (Hrun & Hle & Hkeys & Hd) Hfind H.
  apply find_task_Some in Hfind as [Hin Hk].
  assert (Hnd : NoDup (key <$> tasks s)).
  { unfold keys_fresh in Hkeys. now apply NoDup_app in Hkeys as [? _]. }
  pose proof (remove_task_length k (tasks s) t Hnd Hin Hk) as Hlen.
  assert (Hkeys' : NoDup ((key <$> remove_task k (tasks s)) ++ (fst <$> rest s))).
  { eapply sublist_NoDup; [exact Hkeys|].
    apply sublist_app; [apply remove_task_keys_sublist|reflexivity]. }
  unfold iterateeCallback in H. simpl in H.
  destruct (done s && (running s - 1 <=? 0)%Z) eqn:E.
  - injection H as <-. apply andb_true_iff in E as [Hdone _].
    unfold dispatch_inv, keys_fresh; simpl. rewrite Hdone in *.
    repeat split; auto; lia.
  - apply replenish_state_inv in H; auto; simpl; try lia.
    intros Hdone. now rewrite Hdone in Hd.
Qed.

Lemma set_stage_keys k st ts : key <$> set_stage k st ts = key <$> ts.
Proof.
  unfold set_stage. rewrite <- list_fmap_compose. apply list_fmap_ext.
  intros i t _. simpl. now destruct (decide (key t = k)).
Qed.

Lemma with_files_inv s fs ts :
  key <$> ts = key <$> tasks s -> dispatch_inv s -> dispatch_inv (with_files s fs ts).
Proof.
  intros Hk (Hrun & Hle & Hkeys & Hd).
  unfold dispatch_inv, keys_fresh; simpl. rewrite Hk.
  repeat split; auto.
  rewrite Hrun, <- (length_fmap key ts), Hk, length_fmap. reflexivity.
Qed.

Lemma step_inv e s ev s' :
  dispatch_inv s -> step e s ev = inr s' -> dispatch_inv s'.
Proof.
  intros Hinv H. destruct ev as [k error resp body|k]; simpl in H;
    destruct (find_task k (tasks s)) as [t|] eqn:Hfind;
    try (injection H as <-; exact Hinv);
    destruct (stage_of t); try (injection H as <-; exact Hinv).
  - pose proof Hfind as Hfind'. apply find_task_Some in Hfind' as [_ Hkey].
    unfold on_owner_response in H.
    destruct (task1_response error resp body) as [err|c1]; simpl in H; [discriminate|].
    destruct (wrapIterator c1) as [err|args2].
    + rewrite Hkey in H. exact (iterateeCallback_inv _ _ _ _ _ Hinv Hfind H).
    + destruct (task2 e (files s) (att t) args2) as [err|r2]; simpl in H; [discriminate|].
      destruct (wrapIterator (snd r2)) as [err|args3].
      * rewrite Hkey in H.
        refine (iterateeCallback_inv _ _ _ t _ _ _ H);
          [now apply with_files_inv|exact Hfind].
      * destruct (task3 e (fst r2) (att t) args3) as [err|r3]; simpl in H; [discriminate|].
        injection H as <-. apply with_files_inv; [apply set_stage_keys|exact Hinv].
  - pose proof Hfind as Hfind'. apply find_task_Some in Hfind' as [_ Hkey].
    unfold on_complete in H. rewrite Hkey in H.
    refine (iterateeCallback_inv _ _ _ t _ _ _ H); [|exact Hfind].
    destruct Hinv as (Hrun & Hle & Hkeys & Hd).
    unfold dispatch_inv, keys_fresh; simpl. auto.
Qed.

Lemma run_inv e : forall evs s s',
  dispatch_inv s -> run e s evs = inr s' -> dispatch_inv s'.
Proof.
  induction evs as [|ev evs IH]; intros s s' Hinv H; simpl in H.
  - injection H as <-. exact Hinv.
  - destruct (step e s ev) as [err|s1] eqn:E; simpl in H; [discriminate|].
    eapply IH; [|exact H]. eapply step_inv; eauto.
Qed.

Lemma eachOfLimit_inv e fs total attachments s :
  eachOfLimit e fs total attachments = inr s -> dispatch_inv s.
Proof.
  unfold eachOfLimit. apply replenish_state_inv; simpl; try reflexivity.
  - unfold limit. lia.
  - unfold keys_fresh. simpl.
    rewrite fmap_imap. unfold compose. simpl.
    rewrite imap_seq_0, list_fmap_id. apply NoDup_seq.
  - discriminate.
Qed.

(** C9: in every state a run reaches, at most five attachments are between
    the start of their pipeline and its end (owner resolution, directory,
    download), and while attachments are still waiting exactly five are:
    a waiting attachment starts only when one in flight ends. *)
Theorem concurrency_bound :
  forall (e : env) (fs : filesystem) (total : Z) (attachments : list JsVal)
         (evs : list event) (s0 s : state),
    eachOfLimit e fs total attachments = inr s0 ->
    run e s0 evs = inr s ->
    limit = 5%Z /\
    (Z.of_nat (length (tasks s)) <= limit)%Z /\
    (rest s <> [] -> Z.of_nat (length (tasks s)) = limit).
Proof.
  intros e fs total attachments evs s0 s H0 Hrun.
  apply eachOfLimit_inv in H0.
  destruct (run_inv e evs s0 s H0 Hrun) as (Hr & Hle & _ & Hd).
  rewrite <- Hr. repeat split; [exact Hle|].
  intros Hrest. destruct (done s); [contradiction|exact Hd].
Qed.

Lemma concurrency_bound_witness :
  match eachOfLimit demo_env base_fs 7 seven with
  | inr s0 =>
      match run demo_env s0 [OwnerResponse 2 JNull ok demo_record; DownloadComplete 2] with
      | inr s =>
          limit = 5%Z /\
          (Z.of_nat (length (tasks s)) <= limit)%Z /\
          (rest s <> [] -> Z.of_nat (length (tasks s)) = limit)
      | inl _ => False
      end
  | inl _ => False
  end.
Proof.
  destruct (eachOfLimit demo_env base_fs 7 seven) as [err|s0] eqn:H0;
    [vm_compute in H0; discriminate H0|].
  destruct (run demo_env s0 [OwnerResponse 2 JNull ok demo_record; DownloadComplete 2])
    as [err|s] eqn:H1.
  - vm_compute in H0. injection H0 as <-. vm_compute in H1. discriminate H1.
  - exact (concurrency_bound demo_env base_fs 7 seven _ s0 s H0 H1).
Defined.

(** Seven attachments: five are started, two wait; when one ends, the
    next one starts. *)
Example seven_attachments_five_in_flight :
  in_flight_and_waiting (eachOfLimit demo_env base_fs 7 seven)
    = inr ([0; 1; 2; 3; 4], [5; 6]) /\
  in_flight_and_waiting
    (letM s0 := eachOfLimit demo_env base_fs 7 seven in
     run demo_env s0 [OwnerResponse 2 JNull ok demo_record; DownloadComplete 2])
    = inr ([0; 1; 3; 4; 5], [6]).
Proof. split; vm_compute; reflexivity. Qed.

(** ** A failing attachment and the rest of the batch *)

Lemma begin_tasks_spec e : forall elems fs r,
  begin_tasks e fs elems = inr r -> snd r = new_task <$> elems.
Proof.
  induction elems as [|[k a] more IH]; intros fs r H; simpl in H.
  - injection H as <-. reflexivity.
  - destruct (task1 e fs a) as [err|fs']; simpl in H; [discriminate|].
    destruct (begin_tasks e fs' more) as [err|r'] eqn:E; simpl in H; [discriminate|].
    injection H as <-. simpl. f_equal. exact (IH _ _ E).
Qed.

Lemma elem_of_new_task (elems : list (nat * JsVal)) :
  elem_of_task <$> (new_task <$> elems) = elems.
Proof.
  rewrite <- list_fmap_compose. rewrite <- (list_fmap_id elems) at 2.
  apply list_fmap_ext. now intros i [k a] _.
Qed.

Lemma replenish_state_tasks e s s' :
  (running s <= limit)%Z ->
  (done s = true -> rest s = []) ->
  replenish_state e s = inr s' ->
  exists new,
    tasks s' = tasks s ++ new /\
    rest s = (elem_of_task <$> new) ++ rest s' /\
    Forall (fun t => stage_of t = OwnerResolving) new /\
    percentCompleted s' = percentCompleted s.
Proof.
  intros Hle Hdone H. unfold replenish_state in H.
  destruct (replenish (rest s) (running s) (done s) [])
    as [[[rest' running'] done'] elems] eqn:E.
  apply replenish_spec in E as (new & Hst & Hrest & _); auto.
  simpl in Hst. subst elems.
  destruct (begin_tasks e (files s) new) as [err|r] eqn:Eb; simpl in H; [discriminate|].
  injection H as <-. apply begin_tasks_spec in Eb. simpl.
  exists (snd r). rewrite Eb, elem_of_new_task. repeat split; auto.
  apply Forall_fmap, Forall_true. reflexivity.
Qed.

Lemma replenish_state_nothing_waiting e s :
  rest s = [] -> exists s', replenish_state e s = inr s'.
Proof.
  intros Hrest. unfold replenish_state. rewrite Hrest. simpl.
  destruct ((running s <? limit)%Z && negb (done s)); simpl; eauto.
Qed.

(** What the dispatcher does when a pipeline ends without an error. *)
Lemma iterateeCallback_continues e s k t :
  dispatch_inv s ->
  find_task k (tasks s) = Some t ->
  (rest s = [] -> exists s', iterateeCallback e s k JUndefined = inr s') /\
  (forall s', iterateeCallback e s k JUndefined = inr s' ->
     exists new,
       tasks s' = remove_task k (tasks s) ++ new /\
       rest s = (elem_of_task <$> new) ++ rest s' /\
       Forall (fun t' => stage_of t' = OwnerResolving) new /\
       (rest s <> [] -> new <> []) /\
       percentCompleted s' = percentCompleted s).
Proof.
  intros Hinv Hfind. split.
  - intros Hrest. unfold iterateeCallback. simpl.
    destruct (done s && (running s - 1 <=? 0)%Z); [eauto|].
    now apply replenish_state_nothing_waiting.
  - intros s' H.
    pose proof (iterateeCallback_inv e s k t s' Hinv Hfind H) as Hinv'.
    destruct Hinv as (Hrun & Hle & Hkeys & Hd).
    pose proof Hfind as Hfind'. apply find_task_Some in Hfind' as [Hin Hk].
    assert (Hnd : NoDup (key <$> tasks s)).
    { unfold keys_fresh in Hkeys. now apply NoDup_app in Hkeys as [? _]. }
    pose proof (remove_task_length k (tasks s) t Hnd Hin Hk) as Hlen.
    assert (Hx : exists new,
       tasks s' = remove_task k (tasks s) ++ new /\
       rest s = (elem_of_task <$> new) ++ rest s' /\
       Forall (fun t' => stage_of t' = OwnerResolving) new /\
       percentCompleted s' = percentCompleted s).
    { unfold iterateeCallback in H. simpl in H.
      destruct (done s && (running s - 1 <=? 0)%Z) eqn:E.
      - injection H as <-. exists []. simpl. rewrite app_nil_r. auto.
      - apply replenish_state_tasks in H; simpl; [exact H|lia|].
        intros Hdone. now rewrite Hdone in Hd. }
    destruct Hx as (new & Htasks & Hrest & Hst & Hpc).
    exists new. repeat split; auto.
    intros Hne ->. simpl in Hrest, Htasks. rewrite app_nil_r in Htasks.
    destruct Hinv' as (Hrun' & _ & _ & Hd').
    destruct (done s') eqn:Hdone'; [congruence|].
    destruct (done s) eqn:Hdone; [contradiction|].
    rewrite Htasks in Hrun'. lia.
Qed.

(** C2, as the code has it: a transport error reported to the callback of
    the owner request ends that attachment's pipeline in its final
    function, which drops the error and calls the dispatcher's callback
    without one.  The dispatcher therefore goes on: every other pipeline in
    flight stays as it was, the attachments that waited still wait or are
    started, one of them at least when some were waiting, and nothing more
    happens when none was. *)
Theorem owner_transport_error_isolated :
  forall (e : env) (fs : filesystem) (total : Z) (attachments : list JsVal)
         (evs : list event) (s0 s : state) (k : nat) (t : task)
         (error : JsVal) (resp : response) (body : body_text),
    eachOfLimit e fs total attachments = inr s0 ->
    run e s0 evs = inr s ->
    find_task k (tasks s) = Some t ->
    stage_of t = OwnerResolving ->
    truthy error = true ->
    step e s (OwnerResponse k error resp body)
      = iterateeCallback e s k (writeAttachment_final error) /\
    writeAttachment_final error = JUndefined /\
    (rest s = [] -> exists s', step e s (OwnerResponse k error resp body) = inr s') /\
    (forall s', step e s (OwnerResponse k error resp body) = inr s' ->
       exists new,
         tasks s' = remove_task k (tasks s) ++ new /\
         rest s = (elem_of_task <$> new) ++ rest s' /\
         Forall (fun t' => stage_of t' = OwnerResolving) new /\
         (rest s <> [] -> new <> []) /\
         percentCompleted s' = percentCompleted s).
Proof.
  intros e fs total attachments evs s0 s k t error resp body H0 Hrun Hfind Hstage Herr.
  assert (Hinv : dispatch_inv s).
  { eapply run_inv; [|exact Hrun]. eapply eachOfLimit_inv; exact H0. }
  assert (Hstep : step e s (OwnerResponse k error resp body)
                  = iterateeCallback e s k JUndefined).
  { simpl. rewrite Hfind, Hstage. unfold on_owner_response, task1_response.
    rewrite Herr. simpl. unfold wrapIterator. simpl. rewrite Herr.
    apply find_task_Some in Hfind as [_ ->]. reflexivity. }
  destruct (iterateeCallback_continues e s k t Hinv Hfind) as [Hret Hcont].
  rewrite Hstep. repeat split; auto.
Qed.

Lemma owner_transport_error_isolated_witness :
  match eachOfLimit demo_env base_fs 3 three with
  | inr s0 =>
      match find_task 0 (tasks s0) with
      | Some t =>
          step demo_env s0 (OwnerResponse 0 timeout ok Malformed)
            = iterateeCallback demo_env s0 0 (writeAttachment_final timeout) /\
          writeAttachment_final timeout = JUndefined /\
          (rest s0 = [] ->
             exists s', step demo_env s0 (OwnerResponse 0 timeout ok Malformed) = inr s') /\
          (forall s', step demo_env s0 (OwnerResponse 0 timeout ok Malformed) = inr s' ->
             exists new,
               tasks s' = remove_task 0 (tasks s0) ++ new /\
               rest s0 = (elem_of_task <$> new) ++ rest s' /\
               Forall (fun t' => stage_of t' = OwnerResolving) new /\
               (rest s0 <> [] -> new <> []) /\
               percentCompleted s' = percentCompleted s0)
      | None => False
      end
  | inl _ => False
  end.
Proof.
  destruct (eachOfLimit demo_env base_fs 3 three) as [err|s0] eqn:H0;
    [vm_compute in H0; discriminate H0|].
  destruct (find_task 0 (tasks s0)) as [t|] eqn:Hf.
  - assert (Hst : stage_of t = OwnerResolving).
    { vm_compute in H0. injection H0 as <-. vm_compute in Hf.
      injection Hf as <-. reflexivity. }
    exact (owner_transport_error_isolated demo_env base_fs 3 three [] s0 s0 0 t
             timeout ok Malformed H0 eq_refl Hf Hst eq_refl).
  - vm_compute in H0. injection H0 as <-. vm_compute in Hf. discriminate Hf.
Defined.

(** Three attachments x, y, z: the owner request of x times out, y and z
    are answered; y and z are downloaded and counted, x is not, and the run
    is over with nothing in flight. *)
Example transport_error_others_complete :
  summary
    (run_batch three
       [OwnerResponse 0 timeout ok Malformed;
        OwnerResponse 1 JNull ok demo_record; OwnerResponse 2 JNull ok demo_record;
        DownloadComplete 2; DownloadComplete 1])
    ["incident/INC0010001/x.txt"; "incident/INC0010001/y.txt";
     "incident/INC0010001/z.txt"]
  = inr (2%Z, [], [], [false; true; true]).
Proof. vm_compute. reflexivity. Qed.

(** C2, as stated, fails: when the body of x's owner response cannot be
    parsed, [JSON.parse] throws inside x's pipeline, nothing catches the
    exception, and the run ends there: the responses for y and z are never
    handled. *)
Lemma unparseable_owner_body_aborts_batch :
  run_batch three
    [OwnerResponse 0 JNull ok Malformed;
     OwnerResponse 1 JNull ok demo_record; OwnerResponse 2 JNull ok demo_record;
     DownloadComplete 2; DownloadComplete 1]
  = inl SyntaxError.
Proof. vm_compute. reflexivity. Qed.

(** The same batch with a status 500 for x: the second task of x raises a
    TypeError and the run ends as well. *)
Example status_500_aborts_batch :
  run_batch three
    [OwnerResponse 0 JNull {| statusCode := 500 |} Malformed;
     OwnerResponse 1 JNull ok demo_record; OwnerResponse 2 JNull ok demo_record;
     DownloadComplete 2; DownloadComplete 1]
  = inl (TypeError "path").
Proof. vm_compute. reflexivity. Qed.

(** ** The target path *)

(** The path handed to [getUniquePath] by the third task is the joined
    path, directory included, and [getUniquePath] cleans all of it. *)
Lemma task3_target e fs a dirPath file_name callback :
  get a "file_name" = ret (JStr file_name) ->
  task3 e fs a [JStr dirPath; callback]
  = match attachmentDownloader.getUniquePath (S (size fs)) e fs
            (cleanFileName (path.join dirPath file_name)) with
    | Some filename =>
        letM fs' := createWriteStream e fs filename in ret (fs', filename)
    | None => throw (TypeError "getUniquePath")
    end.
Proof. intros H. unfold task3, param. simpl. rewrite H. reflexivity. Qed.

(** C5 (what the code does): for a record whose number is INC(1), the
    second task creates the directory incident/INC(1), and the third task
    opens incident/INC1/a.txt: the parentheses of the directory component
    are removed along with those of the file name, the directory of the
    target is not the one that was created, and opening the file fails. *)
Theorem directory_components_are_sanitized :
  task2 demo_env {[ ["srv"]; ["srv"; "app"]; ["srv"; "app"; "incident"] ]}
        (demo_att "a1" "a.txt") [JStr "INC(1)"; JFun "callback"]
    = inr (fs_with_parentheses, Call JNull [JStr "incident/INC(1)"]) /\
  getUniquePath 5 demo_env fs_with_parentheses (path.join "incident/INC(1)" "a.txt")
    = Some "incident/INC1/a.txt" /\
  path.dirname "incident/INC1/a.txt" <> "incident/INC(1)" /\
  task3 demo_env fs_with_parentheses (demo_att "a1" "a.txt")
        [JStr "incident/INC(1)"; JFun "callback"]
    = inl (ENOENT "incident/INC1/a.txt") /\
  run_batch [demo_att "a1" "a.txt"] [OwnerResponse 0 JNull ok record_with_parentheses]
    = inl (ENOENT "incident/INC1/a.txt").
Proof.
  split; [|split; [|split; [|split]]]; try (vm_compute; reflexivity).
  vm_compute. discriminate.
Qed.

(** ** Directory creation *)

(** C6, as the code has it: [createDirectorySync] names the directory by
    joining the directory of the script with its argument; it does nothing
    when the directory exists, creates it when it does not exist and its
    parent does, and raises ENOENT when the parent is missing: one level is
    created, never the parents. *)
Theorem createDirectorySync_one_level :
  forall (e : env) (fs : filesystem) (dir : string),
    let dirName := path.join (__dirname e) dir in
    let q := resolve e dirName in
    (entry_exists fs q = true -> createDirectorySync e fs (JStr dir) = ret fs) /\
    (entry_exists fs q = false -> entry_exists fs (parent q) = true ->
       createDirectorySync e fs (JStr dir) = ret ({[ q ]} ∪ fs)) /\
    (entry_exists fs q = false -> entry_exists fs (parent q) = false ->
       createDirectorySync e fs (JStr dir) = throw (ENOENT dirName)).
Proof.
  intros e fs dir dirName q.
  unfold createDirectorySync, path_join. simpl.
  unfold existsSync, mkdirSync. fold dirName. fold q.
  repeat split.
  - intros ->. reflexivity.
  - intros -> ->. reflexivity.
  - intros -> ->. reflexivity.
Qed.

(** C6, as stated, fails: asked for incident/INC0010001 when incident
    does not exist yet, [createDirectorySync] raises ENOENT; it creates
    neither the directory nor its parent. *)
Lemma createDirectorySync_missing_parent :
  existsSync demo_env base_fs "/srv/app/incident" = false /\
  createDirectorySync demo_env base_fs (JStr "incident/INC0010001")
    = inl (ENOENT "/srv/app/incident/INC0010001") /\
  ~ (exists fs', createDirectorySync demo_env base_fs (JStr "incident/INC0010001")
                 = inr fs').
Proof.
  assert (H : createDirectorySync demo_env base_fs (JStr "incident/INC0010001")
              = inl (ENOENT "/srv/app/incident/INC0010001"))
    by (vm_compute; reflexivity).
  split; [vm_compute; reflexivity|split; [exact H|]].
  intros [fs' H']. rewrite H in H'. discriminate H'.
Qed.

Lemma createDirectorySync_one_level_witness :
  createDirectorySync demo_env base_fs (JStr "incident")
  = ret ({[ ["srv"; "app"; "incident"] ]} ∪ base_fs).
Proof.
  refine (proj1 (proj2 (createDirectorySync_one_level demo_env base_fs "incident")) _ _);
    vm_compute; reflexivity.
Defined.

(** ** More on [cleanFileName] *)

Lemma cleanFileName_chars filename :
  chars (cleanFileName filename) = filter kept (chars filename).
Proof.
  unfold cleanFileName. rewrite !chars_replace_class.
  rewrite list_filter_filter. apply list_filter_iff; intros c.
  unfold in_denylist, non_ascii, kept.
  rewrite bool_decide_eq_false, negb_false_iff, N.leb_le. tauto.
Qed.

Lemma filter_all {A} (P : A -> Prop) `{!forall x, Decision (P x)} (l : list A) :
  Forall P l -> filter P l = l.
Proof.
  induction 1 as [|x l Hx _ IH]; [reflexivity|].
  rewrite filter_cons_True by exact Hx. now rewrite IH.
Qed.

(** X1: cleaning a name twice is cleaning it once; a name made of kept
    characters only is returned as it is; and cleaning never lengthens a
    name. *)
Theorem cleanFileName_idempotent :
  forall filename : string,
    cleanFileName (cleanFileName filename) = cleanFileName filename /\
    (Forall kept (chars filename) <-> cleanFileName filename = filename) /\
    String.length (cleanFileName filename) <= String.length filename.
Proof.
  intros filename. split; [|split].
  - apply chars_inj. rewrite !cleanFileName_chars.
    apply filter_all. apply Forall_forall. intros c Hc.
    now apply list_elem_of_filter in Hc as [Hc _].
  - split.
    + intros H. apply chars_inj. rewrite cleanFileName_chars.
      now apply filter_all.
    + intros H. rewrite <- H, cleanFileName_chars.
      apply Forall_forall. intros c Hc.
      now apply list_elem_of_filter in Hc as [Hc _].
  - rewrite !string_length_chars, cleanFileName_chars. apply length_filter.
Qed.

(** ** More on [getUniquePath] *)

Lemma getUniquePath_while_variant e fs dirPath : forall fuel x r,
  getUniquePath_while fuel e fs dirPath x = Some r ->
  exists k, x <= k /\ r = variant dirPath k /\ existsSync e fs r = false.
Proof.
  induction fuel as [|fuel IH]; intros x r H; simpl in H; [discriminate|].
  fold (variant dirPath x) in H.
  destruct (existsSync e fs (variant dirPath x)) eqn:Hx; simpl in H.
  - destruct (IH _ _ H) as (k & Hk & Hr & Hfree). exists k. split; [lia|auto].
  - injection H as <-. exists x. auto.
Qed.

Lemma getUniquePath_some_fresh fuel e fs dirPath r :
  getUniquePath fuel e fs dirPath = Some r -> existsSync e fs r = false.
Proof.
  unfold getUniquePath.
  destruct (existsSync e fs (cleanFileName dirPath)) eqn:E; simpl.
  - intros H. now apply getUniquePath_while_variant in H as (k & _ & _ & Hfree).
  - intros [= <-]. exact E.
Qed.







(** *** The characters of the path returned *)

Lemma drop_while_elem_of {A} (p : A -> bool) l a :
  a ∈ path.drop_while p l -> a ∈ l.
Proof.
  induction l as [|b l IH]; simpl; [easy|].
  destruct (p b); [|easy]. intros H. apply list_elem_of_further. now apply IH.
Qed.

Lemma last_component_chars p c :
  c ∈ chars (path.last_component p) -> c ∈ chars p.
Proof.
  unfold path.last_component. rewrite chars_of_chars, elem_of_reverse.
  intros [H _]%take_while_elem_of. apply drop_while_elem_of in H.
  now rewrite elem_of_reverse in H.
Qed.

Lemma extname_chars p c : c ∈ chars (path.extname p) -> c ∈ chars p.
Proof.
  unfold path.extname. repeat case_bool_decide; simpl;
    try (intros Hnil; now apply elem_of_nil in Hnil).
  rewrite chars_of_chars. intros [->|Hin]%elem_of_cons.
  - now apply last_component_chars.
  - rewrite elem_of_reverse in Hin. apply take_while_elem_of in Hin as [Hin _].
    rewrite elem_of_reverse in Hin. now apply last_component_chars.
Qed.

Lemma strip_suffix_chars suffix s stem c :
  path.strip_suffix suffix s = Some stem -> c ∈ chars stem -> c ∈ chars s.
Proof.
  unfold path.strip_suffix. case_bool_decide; [|discriminate].
  intros [= <-]. rewrite chars_of_chars. apply subseteq_take.
Qed.

Lemma basename_chars p ext c : c ∈ chars (path.basename p ext) -> c ∈ chars p.
Proof.
  unfold path.basename.
  case_bool_decide; [|apply last_component_chars].
  case_bool_decide; [simpl; intros Hnil; now apply elem_of_nil in Hnil|].
  destruct (path.strip_suffix ext (path.last_component p)) as [stem|] eqn:E.
  - destruct stem as [|a stem]; [apply last_component_chars|].
    intros Hin. apply last_component_chars.
    exact (strip_suffix_chars _ _ _ _ E Hin).
  - destruct (path.strip_suffix (path.last_component p) ext);
      [|apply last_component_chars].
    rewrite chars_app. intros [Hin|Hin]%elem_of_app;
      [now apply last_component_chars|].
    unfold path.trailing_slashes in Hin. rewrite chars_of_chars in Hin.
    apply take_while_elem_of in Hin as [Hin _]. now rewrite elem_of_reverse in Hin.
Qed.

Lemma dirname_chars p c :
  c ∈ chars (path.dirname p) -> c ∈ chars p \/ c = path.dot \/ c = path.slash.
Proof.
  destruct p as [|c0 rest]; simpl.
  - intros [->|Hnil]%elem_of_cons; [auto|now apply elem_of_nil in Hnil].
  - destruct (path.drop_while _ _) as [|a before] eqn:E.
    + destruct (path.is_slash c0);
        (intros [->|Hnil]%elem_of_cons; [auto|now apply elem_of_nil in Hnil]).
    + destruct (path.is_slash c0 && bool_decide (before = [])).
      * intros Hin. right. right.
        repeat (apply elem_of_cons in Hin as [->|Hin]; [reflexivity|]).
        now apply elem_of_nil in Hin.
      * simpl. rewrite chars_of_chars.
        intros [->|Hin]%elem_of_cons; [left; apply list_elem_of_here|].
        left. apply list_elem_of_further. rewrite elem_of_reverse in Hin.
        assert (Hin' : c ∈ a :: before) by now apply list_elem_of_further.
        rewrite <- E in Hin'. do 2 apply drop_while_elem_of in Hin'.
        now rewrite elem_of_reverse in Hin'.
Qed.

Lemma pretty_N_char_kept x : kept (pretty_N_char x).
Proof.
  unfold pretty_N_char, kept.
  repeat case_match; (split; [|vm_compute; discriminate]);
    unfold denylist; intros Hin;
    repeat (apply elem_of_cons in Hin as [Hin|Hin]; [discriminate Hin|]);
    now apply elem_of_nil in Hin.
Qed.

Lemma pretty_N_go_kept x s :
  Forall kept (chars s) -> Forall kept (chars (pretty_N_go x s)).
Proof.
  revert s. induction (N.lt_wf_0 x) as [x _ IH]; intros s Hs.
  destruct (decide (x = 0)%N) as [->|Hx]; [now rewrite pretty_N_go_0|].
  rewrite pretty_N_go_step by lia. apply IH; [apply N.div_lt; lia|].
  simpl. constructor; [apply pretty_N_char_kept|exact Hs].
Qed.

Lemma pretty_nat_kept (x : nat) : Forall kept (chars (pretty x)).
Proof.
  unfold pretty, pretty_nat, pretty, pretty_N. case_decide as Hx.
  - simpl. constructor; [apply (pretty_N_char_kept 0)|constructor].
  - apply pretty_N_go_kept. constructor.
Qed.

Lemma kept_punctuation c :
  c = path.dot \/ c = path.slash \/ c = "["%char \/ c = "]"%char -> kept c.
Proof.
  intros [ -> | [ -> | [ -> | -> ]]];
    (split; [|vm_compute; discriminate]);
    unfold denylist; intros Hin;
    repeat (apply elem_of_cons in Hin as [Hin|Hin]; [discriminate Hin|]);
    now apply elem_of_nil in Hin.
Qed.

Lemma variant_kept dirPath k :
  Forall kept (chars dirPath) -> Forall kept (chars (variant dirPath k)).
Proof.
  intros Hp. rewrite Forall_forall in Hp.
  assert (Hext : Forall kept (chars (path.extname dirPath))).
  { apply Forall_forall. intros c Hc. apply Hp. now apply extname_chars in Hc. }
  unfold variant. rewrite !chars_app. repeat apply Forall_app_2.
  - apply Forall_forall. intros c Hc.
    apply dirname_chars in Hc as [Hc|[Hc|Hc]];
      [now apply Hp|apply kept_punctuation; auto..].
  - simpl. constructor; [apply kept_punctuation; auto|constructor].
  - apply Forall_forall. intros c Hc. apply Hp. now apply basename_chars in Hc.
  - simpl. constructor; [apply kept_punctuation; auto|constructor].
  - apply pretty_nat_kept.
  - simpl. constructor; [apply kept_punctuation; auto|constructor].
  - exact Hext.
Qed.

(** X4: whatever path [getUniquePath] returns, no character of it is in
    the denylist or outside ASCII, the directory part included: the
    brackets and digits it inserts are kept characters as well. *)
Theorem getUniquePath_result_kept :
  forall (fuel : nat) (e : env) (fs : filesystem) (dirPath r : string),
    getUniquePath fuel e fs dirPath = Some r ->
    Forall kept (chars r).
Proof.
  intros fuel e fs dirPath r. unfold getUniquePath.
  assert (Hclean : Forall kept (chars (cleanFileName dirPath))).
  { rewrite cleanFileName_chars. apply Forall_forall. intros c Hc.
    now apply list_elem_of_filter in Hc as [Hc _]. }
  destruct (existsSync e fs (cleanFileName dirPath)); simpl.
  - intros H. apply getUniquePath_while_variant in H as (k & _ & -> & _).
    now apply variant_kept.
  - intros [= <-]. exact Hclean.
Qed.

Lemma getUniquePath_result_kept_witness :
  Forall kept (chars "incident/INC0010001/rd final[1].txt").
Proof.
  apply (getUniquePath_result_kept 6 demo_env
           ({[ ["srv"; "app"; "incident"; "INC0010001"; "rd final.txt"] ]} ∪ demo_fs)
           "incident/INC0010001/r&d (final).txt").
  vm_compute. reflexivity.
Defined.

(** ** More on [createDirectorySync] *)

Lemma mkdirSync_spec e fs p fs' :
  mkdirSync e fs p = ret fs' -> fs' = {[ resolve e p ]} ∪ fs.
Proof.
  unfold mkdirSync. destruct (entry_exists fs (resolve e p)); [discriminate|].
  destruct (entry_exists fs (parent (resolve e p))); [|discriminate].
  now intros [= <-].
Qed.

Lemma entry_exists_mono fs fs' q :
  fs ⊆ fs' -> entry_exists fs q = true -> entry_exists fs' q = true.
Proof.
  unfold entry_exists. rewrite !bool_decide_eq_true.
  intros Hsub [Hq|Hq]; [now left|right; now apply Hsub].
Qed.

Lemma createDirectorySync_spec e fs dir fs' :
  createDirectorySync e fs dir = ret fs' ->
  exists d, dir = JStr d /\
    existsSync e fs' (path.join (__dirname e) d) = true /\
    (fs' = fs \/ fs' = {[ resolve e (path.join (__dirname e) d) ]} ∪ fs).
Proof.
  unfold createDirectorySync, path_join.
  destruct dir as [| |b|z|d|l|o|m|f]; simpl; try discriminate.
  intros H. exists d. split; [reflexivity|].
  destruct (existsSync e fs (path.join (__dirname e) d)) eqn:E; simpl in H.
  - injection H as <-. auto.
  - apply mkdirSync_spec in H. subst fs'. split; [|auto].
    unfold existsSync, entry_exists. apply bool_decide_eq_true. set_solver.
Qed.

Lemma createDirectorySync_subseteq e fs dir fs' :
  createDirectorySync e fs dir = ret fs' -> fs ⊆ fs'.
Proof.
  intros H. apply createDirectorySync_spec in H as (d & _ & _ & [->| ->]); set_solver.
Qed.

(** X5: when [createDirectorySync] returns, the directory exists, nothing
    else was added and nothing was removed, and calling it again with the
    same argument changes nothing.  Its argument must be a string. *)
Theorem createDirectorySync_idempotent :
  forall (e : env) (fs fs' : filesystem) (dir : JsVal),
    createDirectorySync e fs dir = ret fs' ->
    exists d, dir = JStr d /\
      existsSync e fs' (path.join (__dirname e) d) = true /\
      fs ⊆ fs' /\
      (forall q, q ∈ fs' -> q ∈ fs \/ q = resolve e (path.join (__dirname e) d)) /\
      createDirectorySync e fs' dir = ret fs'.
Proof.
  intros e fs fs' dir H.
  destruct (createDirectorySync_spec e fs dir fs' H) as (d & -> & Hex & Hfs).
  exists d. repeat split; auto.
  - destruct Hfs as [->| ->]; [reflexivity|apply union_subseteq_r].
  - intros q Hq. destruct Hfs as [->| ->]; [now left|].
    apply elem_of_union in Hq as [Hq|Hq]; [right|now left].
    now apply elem_of_singleton in Hq.
  - unfold createDirectorySync, path_join. simpl. now rewrite Hex.
Qed.

Lemma createDirectorySync_idempotent_witness :
  exists d, JStr "incident" = JStr d /\
    existsSync demo_env ({[ ["srv"; "app"; "incident"] ]} ∪ base_fs)
      (path.join (__dirname demo_env) d) = true /\
    base_fs ⊆ {[ ["srv"; "app"; "incident"] ]} ∪ base_fs /\
    (forall q, q ∈ {[ ["srv"; "app"; "incident"] ]} ∪ base_fs ->
       q ∈ base_fs \/ q = resolve demo_env (path.join (__dirname demo_env) d)) /\
    createDirectorySync demo_env ({[ ["srv"; "app"; "incident"] ]} ∪ base_fs)
      (JStr "incident")
    = ret ({[ ["srv"; "app"; "incident"] ]} ∪ base_fs).
Proof.
  apply (createDirectorySync_idempotent demo_env base_fs).
  vm_compute. reflexivity.
Defined.

(** ** The filesystem only grows *)

Lemma task1_subseteq e fs a fs' : task1 e fs a = ret fs' -> fs ⊆ fs'.
Proof.
  unfold task1. destruct (get a "table_name") as [err|v]; simpl; [discriminate|].
  apply createDirectorySync_subseteq.
Qed.

Lemma begin_tasks_subseteq e : forall elems fs r,
  begin_tasks e fs elems = inr r -> fs ⊆ fst r.
Proof.
  induction elems as [|[k a] more IH]; intros fs r H; simpl in H.
  - injection H as <-. reflexivity.
  - destruct (task1 e fs a) as [err|fs1] eqn:E1; simpl in H; [discriminate|].
    destruct (begin_tasks e fs1 more) as [err|r'] eqn:E; simpl in H; [discriminate|].
    injection H as <-. simpl. apply task1_subseteq in E1. apply IH in E.
    set_solver.
Qed.

Lemma replenish_state_subseteq e s s' :
  replenish_state e s = inr s' -> files s ⊆ files s'.
Proof.
  unfold replenish_state.
  destruct (replenish (rest s) (running s) (done s) []) as [[[r n] d] st].
  destruct (begin_tasks e (files s) st) as [err|res] eqn:E; simpl; [discriminate|].
  intros [= <-]. simpl. now apply begin_tasks_subseteq in E.
Qed.

Lemma iterateeCallback_subseteq e s k err s' :
  iterateeCallback e s k err = inr s' -> files s ⊆ files s'.
Proof.
  unfold iterateeCallback. destruct (truthy err); simpl.
  - now intros [= <-].
  - destruct (done s && (running s - 1 <=? 0)%Z).
    + now intros [= <-].
    + intros H. now apply replenish_state_subseteq in H.
Qed.

Lemma task2_subseteq e fs a args r :
  task2 e fs a args = inr r -> fs ⊆ fst r.
Proof.
  unfold task2. destruct (get a "table_name") as [err|v]; simpl; [discriminate|].
  destruct (path_join v (param 0 args)) as [err|dirPath]; simpl; [discriminate|].
  destruct (createDirectorySync e fs (JStr dirPath)) as [err|fs1] eqn:E; simpl;
    [discriminate|].
  destruct (call (param 1 args) JNull [JStr dirPath]) as [err|c]; simpl; [discriminate|].
  intros [= <-]. simpl. now apply createDirectorySync_subseteq in E.
Qed.

Lemma task3_spec e fs a args r :
  task3 e fs a args = inr r ->
  existsSync e fs (snd r) = false /\
  fst r = {[ resolve e (snd r) ]} ∪ fs.
Proof.
  unfold task3. destruct (get a "file_name") as [err|v]; simpl; [discriminate|].
  destruct (path_join (param 0 args) v) as [err|joined]; simpl; [discriminate|].
  destruct (getUniquePath (S (size fs)) e fs joined) as [filename|] eqn:E;
    [|discriminate].
  apply getUniquePath_some_fresh in E.
  unfold createWriteStream.
  destruct (entry_exists fs (parent (resolve e filename))); simpl; [|discriminate].
  intros [= <-]. simpl. auto.
Qed.

Lemma step_subseteq e s ev s' : step e s ev = inr s' -> files s ⊆ files s'.
Proof.
  intros H. destruct ev as [k error resp body|k]; simpl in H;
    destruct (find_task k (tasks s)) as [t|];
    try (injection H as <-; reflexivity);
    destruct (stage_of t); try (injection H as <-; reflexivity).
  - unfold on_owner_response in H.
    destruct (task1_response error resp body) as [err|c1]; simpl in H; [discriminate|].
    destruct (wrapIterator c1) as [err|args2].
    + now apply iterateeCallback_subseteq in H.
    + destruct (task2 e (files s) (att t) args2) as [err|r2] eqn:E2; simpl in H;
        [discriminate|].
      apply task2_subseteq in E2.
      destruct (wrapIterator (snd r2)) as [err|args3].
      * apply iterateeCallback_subseteq in H. simpl in H. set_solver.
      * destruct (task3 e (fst r2) (att t) args3) as [err|r3] eqn:E3; simpl in H;
          [discriminate|].
        injection H as <-. simpl. apply task3_spec in E3 as [_ ->]. set_solver.
  - unfold on_complete in H. now apply iterateeCallback_subseteq in H.
Qed.

Lemma run_subseteq e : forall evs s s',
  run e s evs = inr s' -> files s ⊆ files s'.
Proof.
  induction evs as [|ev evs IH]; intros s s' H; simpl in H.
  - now injection H as <-.
  - destruct (step e s ev) as [err|s1] eqn:E; simpl in H; [discriminate|].
    apply step_subseteq in E. apply IH in H. set_solver.
Qed.

(** X6: a run never removes an entry of the filesystem: at every state it
    reaches, all that existed at the start of the dispatch still exists,
    the files of the downloads that did not complete included. *)
Theorem files_only_grow :
  forall (e : env) (fs : filesystem) (total : Z) (attachments : list JsVal)
         (evs : list event) (s0 s : state),
    eachOfLimit e fs total attachments = inr s0 ->
    run e s0 evs = inr s ->
    fs ⊆ files s0 /\ files s0 ⊆ files s.
Proof.
  intros e fs total attachments evs s0 s H0 Hrun. split.
  - unfold eachOfLimit in H0. now apply replenish_state_subseteq in H0.
  - now apply run_subseteq in Hrun.
Qed.

Lemma files_only_grow_witness :
  match eachOfLimit demo_env base_fs 3 three with
  | inr s0 =>
      match run demo_env s0 [OwnerResponse 1 JNull ok demo_record] with
      | inr s => base_fs ⊆ files s0 /\ files s0 ⊆ files s
      | inl _ => False
      end
  | inl _ => False
  end.
Proof.
  destruct (eachOfLimit demo_env base_fs 3 three) as [err|s0] eqn:H0;
    [vm_compute in H0; discriminate H0|].
  destruct (run demo_env s0 [OwnerResponse 1 JNull ok demo_record]) as [err|s] eqn:H1.
  - vm_compute in H0. injection H0 as <-. vm_compute in H1. discriminate H1.
  - exact (files_only_grow demo_env base_fs 3 three _ s0 s H0 H1).
Defined.

(** ** The progress counters *)



Lemma dispatch_inv_ext s s1 :
  tasks s1 = tasks s -> rest s1 = rest s -> running s1 = running s ->
  done s1 = done s -> dispatch_inv s -> dispatch_inv s1.
Proof.
  unfold dispatch_inv, keys_fresh. now intros -> -> -> ->.
Qed.

(** The three ways in which an event changes the state: not at all; the
    pipeline of an attachment reaches its download; the pipeline of an
    attachment ends and the dispatcher is called back without an error. *)
Lemma step_cases e s ev s' :
  step e s ev = inr s' ->
  s' = s \/
  (exists t fs2 args3 r3,
     find_task (key t) (tasks s) = Some t /\ stage_of t = OwnerResolving /\
     files s ⊆ fs2 /\ task3 e fs2 (att t) args3 = inr r3 /\
     s' = with_files s (fst r3) (set_stage (key t) (Downloading (snd r3)) (tasks s))) \/
  (exists t s1,
     find_task (key t) (tasks s) = Some t /\
     iterateeCallback e s1 (key t) JUndefined = inr s' /\
     tasks s1 = tasks s /\ rest s1 = rest s /\ running s1 = running s /\
     done s1 = done s /\ percentTotal s1 = percentTotal s /\
     files s ⊆ files s1 /\
     (percentCompleted s1 = percentCompleted s \/
      (percentCompleted s1 = (percentCompleted s + 1)%Z /\
       exists f, stage_of t = Downloading f))).
Proof.
  intros H. destruct ev as [k error resp body|k]; simpl in H;
    destruct (find_task k (tasks s)) as [t|] eqn:Hfind;
    try (injection H as <-; now left);
    destruct (stage_of t) as [|f] eqn:Hstage; try (injection H as <-; now left);
    pose proof Hfind as Hk; apply find_task_Some in Hk as [_ Hk]; subst k; right.
  - unfold on_owner_response in H.
    destruct (task1_response error resp body) as [err|c1]; simpl in H; [discriminate|].
    destruct (wrapIterator c1) as [err|args2].
    + right. exists t, s. unfold writeAttachment_final in H.
      repeat split; auto.
    + destruct (task2 e (files s) (att t) args2) as [err|r2] eqn:E2; simpl in H;
        [discriminate|].
      apply task2_subseteq in E2.
      destruct (wrapIterator (snd r2)) as [err|args3].
      * right. exists t, (with_files s (fst r2) (tasks s)).
        unfold writeAttachment_final in H. repeat split; auto.
      * destruct (task3 e (fst r2) (att t) args3) as [err|r3] eqn:E3; simpl in H;
          [discriminate|].
        injection H as <-. left. exists t, (fst r2), args3, r3. auto.
  - right. unfold on_complete, writeAttachment_final in H.
    eexists t, _. split; [exact Hfind|]. split; [exact H|].
    simpl. repeat split; eauto.
Qed.









(** ** The order of the dispatch *)

Lemma order_extend attachments n (new : list task) rest' :
  drop n (indexed attachments) = (elem_of_task <$> new) ++ rest' ->
  rest' = drop (n + length new) (indexed attachments) /\
  forall t, t ∈ new ->
            key t < n + length new /\ attachments !! key t = Some (att t).
Proof.
  intros H. split.
  - rewrite <- drop_drop, H.
    rewrite drop_app_length'; [reflexivity|now rewrite length_fmap].
  - intros t Hin.
    apply (list_elem_of_fmap_2 elem_of_task) in Hin.
    apply list_elem_of_lookup in Hin as [i Hi].
    pose proof (lookup_lt_Some _ _ _ Hi) as Hlt. rewrite length_fmap in Hlt.
    assert (Hd : drop n (indexed attachments) !! i = Some (elem_of_task t)).
    { rewrite H, lookup_app_l; [exact Hi|now rewrite length_fmap]. }
    rewrite lookup_drop in Hd. unfold indexed in Hd.
    rewrite list_lookup_imap in Hd.
    destruct (attachments !! (n + i)) as [a|] eqn:Ha; simpl in Hd; [|discriminate].
    injection Hd as Hk Hatt. rewrite <- Hk, <- Hatt. split; [lia|exact Ha].
Qed.

Lemma set_stage_elem k st ts t' :
  t' ∈ set_stage k st ts ->
  exists t, t ∈ ts /\ key t' = key t /\ att t' = att t /\
            ((key t = k /\ stage_of t' = st) \/
             (key t <> k /\ stage_of t' = stage_of t)).
Proof.
  unfold set_stage. intros (t & -> & Hin)%list_elem_of_fmap.
  exists t. destruct (decide (key t = k)); simpl; repeat split; auto.
Qed.

Lemma remove_task_elem k ts t : t ∈ remove_task k ts -> t ∈ ts.
Proof. unfold remove_task. now intros [_ H]%list_elem_of_filter. Qed.

Lemma step_order attachments e s ev s' :
  dispatch_inv s -> order_inv attachments s -> step e s ev = inr s' ->
  order_inv attachments s'.
Proof.
  intros Hinv (n & Hrest & Htasks) Hstep.
  apply step_cases in Hstep
    as [->|[(t & fs2 & args3 & r3 & Hfind & Hst & Hsub & H3 & ->)
           |(t & s1 & Hfind & Hcb & Ht & Hr & Hrun & Hd & Htot & Hsub & Hpc)]].
  - now exists n.
  - exists n. simpl. split; [exact Hrest|].
    intros t' (t0 & Hin & -> & -> & _)%set_stage_elem. now apply Htasks.
  - assert (Hinv1 : dispatch_inv s1) by (eapply dispatch_inv_ext; eauto).
    rewrite <- Ht in Hfind.
    destruct (iterateeCallback_continues e s1 (key t) t Hinv1 Hfind) as [_ Hcont].
    destruct (Hcont s' Hcb) as (new & Htasks' & Hrest' & _).
    rewrite Hr, Hrest in Hrest'.
    destruct (order_extend attachments n new (rest s') Hrest') as [Hdrop Hnew].
    exists (n + length new). split; [exact Hdrop|].
    intros t'. rewrite Htasks', elem_of_app. intros [Hin|Hin]; [|now apply Hnew].
    apply remove_task_elem in Hin. rewrite Ht in Hin.
    destruct (Htasks t' Hin). split; [lia|assumption].
Qed.

Lemma run_order attachments e : forall evs s s',
  dispatch_inv s -> order_inv attachments s -> run e s evs = inr s' ->
  order_inv attachments s'.
Proof.
  induction evs as [|ev evs IH]; intros s s' Hinv Ho H; simpl in H.
  - now injection H as <-.
  - destruct (step e s ev) as [err|s1] eqn:E; simpl in H; [discriminate|].
    apply (IH s1 s'); [eapply step_inv; eauto|eapply step_order; eauto|exact H].
Qed.

Lemma eachOfLimit_order e fs total attachments s0 :
  eachOfLimit e fs total attachments = inr s0 -> order_inv attachments s0.
Proof.
  unfold eachOfLimit. intros H.
  apply replenish_state_tasks in H as (new & Htasks & Hrest & _);
    [|simpl; unfold limit; lia|discriminate].
  simpl in *. fold (indexed attachments) in Hrest.
  rewrite <- (drop_0 (indexed attachments)) in Hrest.
  destruct (order_extend attachments 0 new (rest s0) Hrest) as [Hdrop Hnew].
  exists (0 + length new). split; [exact Hdrop|].
  intros t. rewrite Htasks. now apply Hnew.
Qed.

(** X8: the attachments are started in the order of the list: at every
    state of a run the waiting attachments are the list without its first
    [n] elements, and each pipeline in flight works on the element at its
    own index, which is below [n]; no element is skipped or handed out
    twice. *)
Theorem dispatch_in_list_order :
  forall (e : env) (fs : filesystem) (total : Z) (attachments : list JsVal)
         (evs : list event) (s0 s : state),
    eachOfLimit e fs total attachments = inr s0 ->
    run e s0 evs = inr s ->
    NoDup (key <$> tasks s) /\
    exists n,
      rest s = drop n (indexed attachments) /\
      forall t, t ∈ tasks s ->
                key t < n /\ attachments !! key t = Some (att t).
Proof.
  intros e fs total attachments evs s0 s H0 Hrun.
  pose proof (eachOfLimit_order e fs total attachments s0 H0) as Ho.
  apply eachOfLimit_inv in H0.
  split.
  - destruct (run_inv e evs s0 s H0 Hrun) as (_ & _ & Hk & _).
    unfold keys_fresh in Hk. now apply NoDup_app in Hk as [? _].
  - exact (run_order attachments e evs s0 s H0 Ho Hrun).
Qed.

Lemma dispatch_in_list_order_witness :
  match eachOfLimit demo_env base_fs 7 seven with
  | inr s0 =>
      match run demo_env s0 [OwnerResponse 2 JNull ok demo_record; DownloadComplete 2] with
      | inr s =>
          NoDup (key <$> tasks s) /\
          exists n,
            rest s = drop n (indexed seven) /\
            forall t, t ∈ tasks s -> key t < n /\ seven !! key t = Some (att t)
      | inl _ => False
      end
  | inl _ => False
  end.
Proof.
  destruct (eachOfLimit demo_env base_fs 7 seven) as [err|s0] eqn:H0;
    [vm_compute in H0; discriminate H0|].
  destruct (run demo_env s0 [OwnerResponse 2 JNull ok demo_record; DownloadComplete 2])
    as [err|s] eqn:H1.
  - vm_compute in H0. injection H0 as <-. vm_compute in H1. discriminate H1.
  - exact (dispatch_in_list_order demo_env base_fs 7 seven _ s0 s H0 H1).
Defined.

Lemma existsSync_mono e fs fs' p :
  fs ⊆ fs' -> existsSync e fs p = true -> existsSync e fs' p = true.
Proof. unfold existsSync. apply entry_exists_mono. Qed.

(** ** The list query, continued *)


(** ** The first attachments of a dispatch *)

Lemma replenish_closed : forall (r : list (nat * JsVal)) (m : nat) st,
  m <= 5 ->
  replenish r (5 - Z.of_nat m)%Z false st
  = (drop m r, (5 - Z.of_nat m + Z.of_nat (min m (length r)))%Z,
     bool_decide (length r < m), st ++ take m r).
Proof.
  induction r as [|x r IH]; intros m st Hm.
  - simpl. unfold limit. destruct m as [|m].
    + simpl. rewrite app_nil_r. reflexivity.
    + destruct (Z.ltb_spec (5 - Z.of_nat (S m)) 5); [|lia]. simpl.
      rewrite app_nil_r. repeat f_equal; lia.
  - destruct m as [|m].
    + simpl. rewrite app_nil_r. reflexivity.
    + cbn [replenish]. unfold limit.
      destruct (Z.ltb_spec (5 - Z.of_nat (S m)) 5); [|lia]. cbn [andb negb].
      replace (5 - Z.of_nat (S m) + 1)%Z with (5 - Z.of_nat m)%Z by lia.
      rewrite IH by lia. cbn [drop take length].
      rewrite <- (assoc_L (++)). cbn [app].
      rewrite (bool_decide_ext (S (length r) < S m) (length r < m)) by lia.
      replace (5 - Z.of_nat (S m) + Z.of_nat (S m `min` S (length r)))%Z
        with (5 - Z.of_nat m + Z.of_nat (m `min` length r))%Z by lia.
      reflexivity.
Qed.

Lemma begin_tasks_dirs e : forall elems fs r,
  begin_tasks e fs elems = inr r ->
  forall k a, (k, a) ∈ elems ->
    exists d, get a "table_name" = ret (JStr d) /\
              existsSync e (fst r) (path.join (__dirname e) d) = true.
Proof.
  induction elems as [|[k0 a0] more IH]; intros fs r H k a Hin; simpl in H.
  - now apply elem_of_nil in Hin.
  - destruct (task1 e fs a0) as [err|fs1] eqn:E1; simpl in H; [discriminate|].
    destruct (begin_tasks e fs1 more) as [err|r'] eqn:E; simpl in H; [discriminate|].
    injection H as <-. simpl.
    apply elem_of_cons in Hin as [[= -> ->]|Hin]; [|exact (IH _ _ E _ _ Hin)].
    unfold task1 in E1.
    destruct (get a0 "table_name") as [err|v]; simpl in E1; [discriminate|].
    apply createDirectorySync_spec in E1 as (d & -> & Hex & _).
    exists d. split; [reflexivity|].
    eapply existsSync_mono; [|exact Hex]. now apply begin_tasks_subseteq in E.
Qed.

(** X10: the dispatch starts the pipelines of the first five attachments
    of the list, all of them when the list has fewer, in the order of the
    list, and leaves the others waiting; it reads the end of the list, and
    sets [done], only when the list has fewer than five elements.  It
    returns exactly when the first tasks of those pipelines do. *)
Theorem eachOfLimit_starts_first_five :
  forall (e : env) (fs : filesystem) (total : Z) (attachments : list JsVal),
    eachOfLimit e fs total attachments
    = letM r := begin_tasks e fs (take 5 (indexed attachments)) in
      ret {| files := fst r; percentTotal := total; percentCompleted := 0;
             rest := drop 5 (indexed attachments);
             running := Z.of_nat (min 5 (length attachments));
             done := bool_decide (length attachments < 5);
             tasks := new_task <$> take 5 (indexed attachments) |}.
Proof.
  intros e fs total attachments. unfold eachOfLimit, replenish_state.
  cbn [rest running done files tasks percentTotal percentCompleted].
  fold (indexed attachments).
  pose proof (replenish_closed (indexed attachments) 5 [] (le_n 5)) as H.
  change (5 - Z.of_nat 5)%Z with 0%Z in H. rewrite H.
  change ([] ++ take 5 (indexed attachments)) with (take 5 (indexed attachments)).
  replace (length (indexed attachments)) with (length attachments)
    by (unfold indexed; now rewrite length_imap).
  replace (0 + Z.of_nat (5 `min` length attachments))%Z
    with (Z.of_nat (5 `min` length attachments)) by lia.
  destruct (begin_tasks e fs (take 5 (indexed attachments))) as [err|r] eqn:E;
    unfold bind; [reflexivity|].
  apply begin_tasks_spec in E. rewrite E. reflexivity.
Qed.

(** X11: when the dispatch returns, each of the first five attachments of
    the list has a string for table name and the directory of its table
    exists under the directory of the script; a record among them without
    a table name makes the dispatch throw instead. *)
Theorem first_five_have_table_directories :
  forall (e : env) (fs : filesystem) (total : Z) (attachments : list JsVal)
         (s0 : state) (i : nat) (a : JsVal),
    eachOfLimit e fs total attachments = inr s0 ->
    i < 5 ->
    attachments !! i = Some a ->
    exists d, get a "table_name" = ret (JStr d) /\
              existsSync e (files s0) (path.join (__dirname e) d) = true.
Proof.
  intros e fs total attachments s0 i a H0 Hi Ha.
  unfold eachOfLimit, replenish_state in H0.
  cbn [rest running done files tasks percentTotal percentCompleted] in H0.
  fold (indexed attachments) in H0.
  pose proof (replenish_closed (indexed attachments) 5 [] (le_n 5)) as H.
  change (5 - Z.of_nat 5)%Z with 0%Z in H. rewrite H in H0.
  change ([] ++ take 5 (indexed attachments))
    with (take 5 (indexed attachments)) in H0.
  destruct (begin_tasks e fs (take 5 (indexed attachments))) as [err|r] eqn:E;
    unfold bind in H0; [discriminate|].
  injection H0 as <-. cbn [files].
  apply (begin_tasks_dirs e _ _ _ E i a).
  apply list_elem_of_lookup. exists i.
  rewrite lookup_take_lt by exact Hi. unfold indexed.
  rewrite list_lookup_imap, Ha. reflexivity.
Qed.

Lemma first_five_have_table_directories_witness :
  match eachOfLimit demo_env base_fs 3 three with
  | inr s0 =>
      exists d, get (demo_att "y" "y.txt") "table_name" = ret (JStr d) /\
                existsSync demo_env (files s0) (path.join (__dirname demo_env) d) = true
  | inl _ => False
  end.
Proof.
  destruct (eachOfLimit demo_env base_fs 3 three) as [err|s0] eqn:H0;
    [vm_compute in H0; discriminate H0|].
  apply (first_five_have_table_directories demo_env base_fs 3 three s0 1
           (demo_att "y" "y.txt") H0); [lia|reflexivity].
Defined.

(** ** The script of attachmentDownloader.js *)

Lemma forEach_collect_id elems : attachmentDownloader_js.forEach_collect elems = elems.
Proof.
  unfold attachmentDownloader_js.forEach_collect.
  assert (H : forall acc, fold_left (fun attachments a => attachments ++ [a]) elems acc
                          = acc ++ elems).
  { induction elems as [|a elems IH]; intros acc; simpl.
    - now rewrite app_nil_r.
    - rewrite IH, <- (assoc_L (++)). reflexivity. }
  apply H.
Qed.

(** X12: in attachmentDownloader.js, a list query that succeeds starts
    the pipelines of all the attachments of the list at once, however many
    they are, in the order of the list; for an empty list the second task
    still runs and starts nothing. *)
Theorem legacy_starts_all_at_once :
  forall (e : env) (fs : filesystem) (error : JsVal) (resp : response)
         (top : list (string * JsVal)) (elems : list JsVal),
    truthy error = false ->
    statusCode resp = 200%Z ->
    assoc "result" top = JArr elems ->
    attachmentDownloader_js.after_list_query e fs error resp (Json (JObj top))
      = (letM r := begin_tasks e fs (indexed elems) in ret (Some r)) /\
    (forall r, begin_tasks e fs (indexed elems) = inr r ->
               snd r = new_task <$> indexed elems /\
               length (snd r) = length elems) /\
    (elems = [] ->
     attachmentDownloader_js.after_list_query e fs error resp (Json (JObj top))
       = ret (Some (fs, []))).
Proof.
  intros e fs error resp top elems Herr Hstatus Hresult.
  assert (Heq : attachmentDownloader_js.after_list_query e fs error resp (Json (JObj top))
                = (letM r := begin_tasks e fs (indexed elems) in ret (Some r))).
  { unfold attachmentDownloader_js.after_list_query,
      attachmentDownloader_js.list_callback.
    rewrite Herr, Hstatus. simpl. rewrite Hresult. simpl.
    rewrite forEach_collect_id. reflexivity. }
  split; [exact Heq|split].
  - intros r Hr. apply begin_tasks_spec in Hr. rewrite Hr.
    split; [reflexivity|]. unfold indexed. now rewrite length_fmap, length_imap.
  - intros ->. rewrite Heq. reflexivity.
Qed.

Lemma legacy_starts_all_at_once_witness :
  attachmentDownloader_js.after_list_query demo_env base_fs JNull ok
    (Json (JObj [("result", JArr seven)]))
  = (letM r := begin_tasks demo_env base_fs (indexed seven) in ret (Some r)).
Proof.
  refine (proj1 (legacy_starts_all_at_once demo_env base_fs JNull ok
            [("result", JArr seven)] seven _ _ _)); reflexivity.
Defined.

(** The seven attachments of the sample are all in flight at once. *)
Example legacy_seven_in_flight :
  (letM o := attachmentDownloader_js.after_list_query demo_env base_fs JNull ok
               (Json (JObj [("result", JArr seven)])) in
   ret (match o with Some r => key <$> snd r | None => [] end))
  = inr [0; 1; 2; 3; 4; 5; 6].
Proof. vm_compute. reflexivity. Qed.

(** X13: in attachmentDownloader.js, a transport error on the list query
    ends the outer waterfall in its final function: nothing is started and
    the process does not exit.  A status other than 200 without a
    transport error calls the continuation with the falsy [error]: the
    second task runs on the continuation itself and throws a TypeError. *)
Theorem legacy_list_errors :
  forall (e : env) (fs : filesystem) (error : JsVal) (resp : response)
         (body : body_text),
    (truthy error = true ->
     attachmentDownloader_js.after_list_query e fs error resp body = ret None) /\
    (truthy error = false -> statusCode resp <> 200%Z ->
     attachmentDownloader_js.after_list_query e fs error resp body
       = throw (TypeError "forEach")).
Proof.
  intros e fs error resp body.
  unfold attachmentDownloader_js.after_list_query,
    attachmentDownloader_js.list_callback, wrapIterator.
  split.
  - intros Herr. rewrite Herr. simpl. rewrite Herr. reflexivity.
  - intros Herr Hstatus. rewrite Herr. simpl.
    destruct (Z.eqb_spec (statusCode resp) 200); [contradiction|]. simpl.
    rewrite Herr. reflexivity.
Qed.

(** ** Responses that end the run *)

(** X14: whatever the state of the run, an owner response with status 200
    whose body [JSON.parse] rejects raises a SyntaxError in the callback of
    the request; nothing catches it. *)
Theorem unparseable_owner_body_throws :
  forall (e : env) (s : state) (k : nat) (t : task) (error : JsVal)
         (resp : response),
    find_task k (tasks s) = Some t ->
    stage_of t = OwnerResolving ->
    truthy error = false ->
    statusCode resp = 200%Z ->
    step e s (OwnerResponse k error resp Malformed) = throw SyntaxError.
Proof.
  intros e s k t error resp Hfind Hstage Herr Hstatus.
  simpl. rewrite Hfind, Hstage. unfold on_owner_response, task1_response.
  rewrite Herr, Hstatus. reflexivity.
Qed.

Lemma unparseable_owner_body_throws_witness :
  match eachOfLimit demo_env base_fs 3 three with
  | inr s0 =>
      match find_task 0 (tasks s0) with
      | Some t => step demo_env s0 (OwnerResponse 0 JNull ok Malformed) = throw SyntaxError
      | None => False
      end
  | inl _ => False
  end.
Proof.
  destruct (eachOfLimit demo_env base_fs 3 three) as [err|s0] eqn:H0;
    [vm_compute in H0; discriminate H0|].
  destruct (find_task 0 (tasks s0)) as [t|] eqn:Hf.
  - assert (Hst : stage_of t = OwnerResolving).
    { vm_compute in H0. injection H0 as <-. vm_compute in Hf.
      injection Hf as <-. reflexivity. }
    exact (unparseable_owner_body_throws demo_env s0 0 t JNull ok Hf Hst eq_refl eq_refl).
  - vm_compute in H0. injection H0 as <-. vm_compute in Hf. discriminate Hf.
Defined.

(** X15: an owner record with neither a number nor a sys_id gives
    [undefined] for task number; the second task hands it to [path.join],
    which raises a TypeError, and the run ends with an exception. *)
Theorem owner_record_without_label_throws :
  forall (e : env) (s : state) (k : nat) (t : task) (error : JsVal)
         (resp : response) (top props : list (string * JsVal)),
    find_task k (tasks s) = Some t ->
    stage_of t = OwnerResolving ->
    truthy error = false ->
    statusCode resp = 200%Z ->
    assoc "result" top = JObj props ->
    assoc "number" props = JUndefined ->
    assoc "sys_id" props = JUndefined ->
    task1_response error resp (Json (JObj top)) = ret (Call JNull [JUndefined]) /\
    exists err, step e s (OwnerResponse k error resp (Json (JObj top))) = throw err.
Proof.
  intros e s k t error resp top props Hfind Hstage Herr Hstatus Hres Hnum Hid.
  assert (H1 : task1_response error resp (Json (JObj top))
               = ret (Call JNull [JUndefined])).
  { unfold task1_response. rewrite Herr, Hstatus. simpl. rewrite Hres. simpl.
    rewrite Hnum. simpl. now rewrite Hid. }
  split; [exact H1|].
  simpl. rewrite Hfind, Hstage. unfold on_owner_response. rewrite H1. simpl.
  unfold task2, param. simpl.
  destruct (get (att t) "table_name") as [err|v]; simpl; [now exists err|].
  exists (TypeError "path"). now destruct v.
Qed.

Lemma owner_record_without_label_throws_witness :
  match eachOfLimit demo_env base_fs 3 three with
  | inr s0 =>
      match find_task 0 (tasks s0) with
      | Some t =>
          task1_response JNull ok record_without_label = ret (Call JNull [JUndefined]) /\
          exists err, step demo_env s0 (OwnerResponse 0 JNull ok record_without_label)
                      = throw err
      | None => False
      end
  | inl _ => False
  end.
Proof.
  destruct (eachOfLimit demo_env base_fs 3 three) as [err|s0] eqn:H0;
    [vm_compute in H0; discriminate H0|].
  destruct (find_task 0 (tasks s0)) as [t|] eqn:Hf.
  - assert (Hst : stage_of t = OwnerResolving).
    { vm_compute in H0. injection H0 as <-. vm_compute in Hf.
      injection Hf as <-. reflexivity. }
    exact (owner_record_without_label_throws demo_env s0 0 t JNull ok
             [("result", JObj [("short_description", JStr "printer")])]
             [("short_description", JStr "printer")]
             Hf Hst eq_refl eq_refl eq_refl eq_refl eq_refl).
  - vm_compute in H0. injection H0 as <-. vm_compute in Hf. discriminate Hf.
Defined.

(** ** A completed download is counted once *)

Lemma step_gone e s ev s' k :
  dispatch_inv s -> gone k s -> step e s ev = inr s' -> gone k s'.
Proof.
  intros Hinv [Gt Gr] Hstep.
  apply step_cases in Hstep
    as [->|[(t & fs2 & args3 & r3 & Hfind & Hst & Hsub & H3 & ->)
           |(t & s1 & Hfind & Hcb & Ht & Hr & Hrun & Hd & Htot & Hsub & Hpc)]].
  - now split.
  - split; simpl; [|exact Gr].
    intros t' (t0 & Hin & -> & _)%set_stage_elem. now apply Gt.
  - assert (Hinv1 : dispatch_inv s1) by (eapply dispatch_inv_ext; eauto).
    rewrite <- Ht in Hfind.
    destruct (iterateeCallback_continues e s1 (key t) t Hinv1 Hfind) as [_ Hcont].
    destruct (Hcont s' Hcb) as (new & Htasks' & Hrest' & _).
    rewrite Hr in Hrest'. split.
    + intros t'. rewrite Htasks', elem_of_app. intros [Hin|Hin].
      * apply remove_task_elem in Hin. rewrite Ht in Hin. now apply Gt.
      * apply (Gr (elem_of_task t')). rewrite Hrest'. apply elem_of_app. left.
        now apply list_elem_of_fmap_2.
    + intros elem Hin. apply Gr. rewrite Hrest'. apply elem_of_app. now right.
Qed.

Lemma run_gone e k : forall evs s s',
  dispatch_inv s -> gone k s -> run e s evs = inr s' -> gone k s'.
Proof.
  induction evs as [|ev evs IH]; intros s s' Hinv Hg H; simpl in H.
  - now injection H as <-.
  - destruct (step e s ev) as [err|s1] eqn:E; simpl in H; [discriminate|].
    apply (IH s1 s'); [eapply step_inv; eauto|eapply step_gone; eauto|exact H].
Qed.

Lemma pipeline_end_gone e s k t s' :
  dispatch_inv s ->
  find_task k (tasks s) = Some t ->
  iterateeCallback e s k JUndefined = inr s' ->
  gone k s'.
Proof.
  intros Hinv Hfind Hcb.
  destruct (iterateeCallback_continues e s k t Hinv Hfind) as [_ Hcont].
  destruct (Hcont s' Hcb) as (new & Htasks' & Hrest' & _).
  destruct Hinv as (_ & _ & Hkeys & _). unfold keys_fresh in Hkeys.
  apply NoDup_app in Hkeys as (_ & Hdisj & _).
  apply find_task_Some in Hfind as [Hin Hk].
  assert (Hnot : forall elem, elem ∈ rest s -> fst elem <> k).
  { intros elem Hel Heq. apply (Hdisj k).
    - rewrite <- Hk. now apply list_elem_of_fmap_2.
    - rewrite <- Heq. now apply list_elem_of_fmap_2. }
  split.
  - intros t'. rewrite Htasks', elem_of_app. intros [Hin'|Hin'].
    + unfold remove_task in Hin'. now apply list_elem_of_filter in Hin' as [? _].
    + apply (Hnot (elem_of_task t')). rewrite Hrest'. apply elem_of_app. left.
      now apply list_elem_of_fmap_2.
  - intros elem Hel. apply Hnot. rewrite Hrest'. apply elem_of_app. now right.
Qed.

(** X16: the complete event of a download in flight adds exactly one to the
    count of completed downloads and ends the pipeline of its attachment;
    from then on that attachment is neither in flight nor waiting, so no
    later event counts it or starts it again. *)
Theorem completed_download_counted_once :
  forall (e : env) (fs : filesystem) (total : Z) (attachments : list JsVal)
         (evs evs' : list event) (s0 s s' s'' : state) (k : nat) (t : task)
         (f : string),
    eachOfLimit e fs total attachments = inr s0 ->
    run e s0 evs = inr s ->
    find_task k (tasks s) = Some t ->
    stage_of t = Downloading f ->
    step e s (DownloadComplete k) = inr s' ->
    run e s' evs' = inr s'' ->
    percentCompleted s' = (percentCompleted s + 1)%Z /\
    (forall t', t' ∈ tasks s'' -> key t' <> k) /\
    (forall elem, elem ∈ rest s'' -> fst elem <> k) /\
    step e s'' (DownloadComplete k) = inr s''.
Proof.
  intros e fs total attachments evs evs' s0 s s' s'' k t f H0 Hrun Hfind Hstage
    Hstep Hrun'.
  assert (Hinv : dispatch_inv s).
  { eapply run_inv; [|exact Hrun]. eapply eachOfLimit_inv; exact H0. }
  pose proof (step_inv e s _ s' Hinv Hstep) as Hinv'.
  simpl in Hstep. rewrite Hfind, Hstage in Hstep.
  unfold on_complete, writeAttachment_final in Hstep.
  pose proof Hfind as Hk. apply find_task_Some in Hk as [_ Hk]. rewrite Hk in Hstep.
  set (s1 := {| files := files s; percentTotal := percentTotal s;
                percentCompleted := (percentCompleted s + 1)%Z;
                rest := rest s; running := running s; done := done s;
                tasks := tasks s |}) in Hstep.
  assert (Hinv1 : dispatch_inv s1) by (now apply (dispatch_inv_ext s)).
  assert (Hfind1 : find_task k (tasks s1) = Some t) by exact Hfind.
  destruct (iterateeCallback_continues e s1 k t Hinv1 Hfind1) as [_ Hcont].
  destruct (Hcont s' Hstep) as (_ & _ & _ & _ & _ & Hpc).
  pose proof (pipeline_end_gone e s1 k t s' Hinv1 Hfind1 Hstep) as Hgone.
  destruct (run_gone e k evs' s' s'' Hinv' Hgone Hrun') as [Gt Gr].
  repeat split; auto.
  simpl. destruct (find_task k (tasks s'')) as [t''|] eqn:Hf''; [|reflexivity].
  apply find_task_Some in Hf'' as [Hin'' Hk'']. now destruct (Gt t'' Hin'').
Qed.

Lemma completed_download_counted_once_witness :
  match eachOfLimit demo_env base_fs 3 three with
  | inr s0 =>
      match run demo_env s0 [OwnerResponse 1 JNull ok demo_record] with
      | inr s =>
          match find_task 1 (tasks s), step demo_env s (DownloadComplete 1) with
          | Some t, inr s' =>
              match run demo_env s' [DownloadComplete 1; OwnerResponse 1 JNull ok demo_record] with
              | inr s'' =>
                  percentCompleted s' = (percentCompleted s + 1)%Z /\
                  (forall t', t' ∈ tasks s'' -> key t' <> 1) /\
                  (forall elem, elem ∈ rest s'' -> fst elem <> 1) /\
                  step demo_env s'' (DownloadComplete 1) = inr s''
              | inl _ => False
              end
          | _, _ => False
          end
      | inl _ => False
      end
  | inl _ => False
  end.
Proof.
  destruct (eachOfLimit demo_env base_fs 3 three) as [err|s0] eqn:H0;
    [vm_compute in H0; discriminate H0|].
  destruct (run demo_env s0 [OwnerResponse 1 JNull ok demo_record]) as [err|s] eqn:H1;
    [vm_compute in H0; injection H0 as <-; vm_compute in H1; discriminate H1|].
  destruct (find_task 1 (tasks s)) as [t|] eqn:Hf;
    [|vm_compute in H0; injection H0 as <-; vm_compute in H1; injection H1 as <-;
      vm_compute in Hf; discriminate Hf].
  destruct (step demo_env s (DownloadComplete 1)) as [err|s'] eqn:H2;
    [vm_compute in H0; injection H0 as <-; vm_compute in H1; injection H1 as <-;
     vm_compute in H2; discriminate H2|].
  destruct (run demo_env s' [DownloadComplete 1; OwnerResponse 1 JNull ok demo_record])
    as [err|s''] eqn:H3;
    [vm_compute in H0; injection H0 as <-; vm_compute in H1; injection H1 as <-;
     vm_compute in H2; injection H2 as <-; vm_compute in H3; discriminate H3|].
  assert (Hst : stage_of t = Downloading "incident/INC0010001/y.txt").
  { vm_compute in H0. injection H0 as <-. vm_compute in H1. injection H1 as <-.
    vm_compute in Hf. injection Hf as <-. reflexivity. }
  exact (completed_download_counted_once demo_env base_fs 3 three _ _ s0 s s' s'' 1 t _
           H0 H1 Hf Hst H2 H3).
Defined.
